(** * PRISM: colour-stratified point-cloud sampling (src/PRISM.py)

    A shallow embedding of [prism_sampling] and of the numpy / Open3D
    operations it is written with, followed by the properties of the
    sampler.  Arrays are lists, float64 is Rocq's primitive binary64
    float, Python references to point clouds are locations of a heap,
    and the process-wide numpy random state is threaded explicitly. *)

From Stdlib Require Import Floats ZArith Lia.
From stdpp Require Import base option list sorting strings gmap.

Local Open Scope Z_scope.

(** ** numpy array primitives on lists *)

Module Np.

(** [np.arange(n)] *)
Definition arange (n : nat) : list nat := seq 0 n.

(** Integer-array indexing [a[idx]]: an index past the end raises
    IndexError, here [None]. *)
Definition take {A} (a : list A) (idx : list nat) : option (list A) :=
  mapM (λ i, a !! i) idx.

(** Boolean-mask selection, on a mask as long as the array. *)
Fixpoint compress {A} (m : list bool) (a : list A) : list A :=
  match m, a with
  | b :: m', x :: a' => if b then x :: compress m' a' else compress m' a'
  | _, _ => []
  end.

(** Boolean-array indexing [a[mask]]: numpy raises IndexError when the
    mask and the array differ in length. *)
Definition mask_index {A} (a : list A) (m : list bool) : option (list A) :=
  if decide (length m = length a) then Some (compress m a) else None.

(** [np.nonzero(mask)] for a one-dimensional mask. *)
Definition nonzero (m : list bool) : list nat := compress m (arange (length m)).

(** [np.diff(a)] on naturals that do not decrease. *)
Definition diff (a : list nat) : list nat :=
  zip_with (λ hi lo, (hi - lo)%nat) (tail a) a.

(** [np.repeat(values, counts)] with one count per value. *)
Definition repeat {A} (values : list A) (counts : list nat) : list A :=
  concat (zip_with (λ v c, replicate c v) values counts).

End Np.

(** ** Sorting and [np.unique] over a totally ordered key type *)

Section Keys.
Context {K : Type} `{EqDecision K}.
Variable le : K → K → bool.

Definition key_le (x y : K) : Prop := le x y = true.

(** Stable insertion of an (index, key) pair: the pair goes in front of
    the first pair whose key is not smaller. *)
Fixpoint insert_pair (p : nat * K) (l : list (nat * K)) : list (nat * K) :=
  match l with
  | [] => [p]
  | q :: l' => if le p.2 q.2 then p :: l else q :: insert_pair p l'
  end.

(** A stable sort of the array paired with its indices; every stable
    sort (numpy's mergesort among them) computes this permutation. *)
Definition stable_sort_pairs (ar : list K) : list (nat * K) :=
  foldr insert_pair [] (zip (Np.arange (length ar)) ar).

Definition stable_argsort (ar : list K) : list nat := (stable_sort_pairs ar).*1.

(** The mask of numpy's [_unique1d]:
    [mask[:1] = True; mask[1:] = aux[1:] != aux[:-1]]. *)
Definition change_mask (aux : list K) : list bool :=
  match aux with
  | [] => []
  | _ :: t => true :: zip_with (λ a b, bool_decide (a ≠ b)) t aux
  end.

(** [np.unique(ar, return_index=True, return_counts=True)] as numpy's
    [_unique1d] computes it: [perm = ar.argsort(kind='mergesort')],
    [aux = ar[perm]], the mask of the places where [aux] changes, then
    [aux[mask]], [perm[mask]] and the differences of the mask's
    positions closed by the size. *)
Definition unique (ar : list K) : list K * list nat * list nat :=
  let sorted := stable_sort_pairs ar in
  let perm := sorted.*1 in
  let aux := sorted.*2 in
  let mask := change_mask aux in
  let idx := Np.nonzero mask ++ [length mask] in
  (Np.compress mask aux, Np.compress mask perm, Np.diff idx).

(** [group_starts_expanded] of step 4, from the sorted keys: the
    [np.unique] call and the [np.repeat] of its indices by its counts. *)
Definition group_starts (sorted : list K) : list nat :=
  let '(_, unique_indices, unique_counts) := unique sorted in
  Np.repeat unique_indices unique_counts.

(** The group starts that [np.repeat] builds from a mask of changes:
    the positions of the mask's [True]s, each repeated up to the next. *)
Definition mask_group_starts (mask : list bool) : list nat :=
  Np.repeat (Np.nonzero mask) (Np.diff (Np.nonzero mask ++ [length mask])).

(** [current_indices - group_starts_expanded] on keys already in order. *)
Definition run_counter (sorted : list K) : list Z :=
  zip_with (λ i g, Z.of_nat i - Z.of_nat g)
    (Np.arange (length sorted)) (mask_group_starts (change_mask sorted)).

(** Number of occurrences of a key. *)
Definition occ (κ : K) (l : list K) : nat := length (filter (λ y, y = κ) l).

(** Equal keys are adjacent: the list is a sequence of runs of
    pairwise different keys. *)
Inductive grouped : list K → Prop :=
  | grouped_nil : grouped []
  | grouped_run x c rest :
      x ∉ rest → grouped rest → grouped (replicate (S c) x ++ rest).

(** The contract of [np.argsort] with the default, unstable kind: some
    permutation of the positions that puts the keys in order.  Which
    one, among equal keys, is up to the implementation. *)
Class ArgSort := {
  argsort : list K → list nat;
  argsort_perm : ∀ ar, argsort ar ≡ₚ Np.arange (length ar);
  argsort_sorted : ∀ ar sorted,
    Np.take ar (argsort ar) = Some sorted → Sorted key_le sorted
}.
End Keys.
Arguments argsort {K le ArgSort} ar.

(** ** float64 rounding and the cast to int32 *)

Module F64.

Definition INT32_MIN : Z := -2147483648.
Definition INT32_MAX : Z := 2147483647.

(** The magnitude [m * 2^e] rounded to the nearest integer, ties to even. *)
Definition round_half_even (m : positive) (e : Z) : Z :=
  match e with
  | Zneg d =>
      let p := 2 ^ Zpos d in
      let q := Zpos m / p in
      let r := Zpos m mod p in
      match 2 * r ?= p with
      | Lt => q
      | Gt => q + 1
      | Eq => if Z.even q then q else q + 1
      end
  | _ => Zpos m * 2 ^ e
  end.

(** The magnitude [m * 2^e] truncated toward zero. *)
Definition truncate (m : positive) (e : Z) : Z :=
  match e with
  | Zneg d => Zpos m / 2 ^ Zpos d
  | _ => Zpos m * 2 ^ e
  end.

(** [ndarray.round()] with no decimals is [np.rint]: the nearest integral
    float64, ties to even, the sign kept on a zero result; zeros,
    infinities and NaN pass through. *)
Definition rint (x : float) : float :=
  match Prim2SF x with
  | S754_finite s m e =>
      SF2Prim (binary_normalize prec emax (cond_Zopp s (round_half_even m e)) 0 s)
  | _ => x
  end.

(** [.astype(np.int32)]: truncation toward zero; a value that int32
    cannot hold (too large, infinite, NaN) is undefined in C and comes out
    as INT32_MIN on x86-64, which is what is modelled. *)
Definition astype_int32 (x : float) : Z :=
  match Prim2SF x with
  | S754_zero _ => 0
  | S754_finite s m e =>
      let z := cond_Zopp s (truncate m e) in
      if bool_decide (INT32_MIN ≤ z ≤ INT32_MAX) then z else INT32_MIN
  | _ => INT32_MIN
  end.

End F64.

(** A float that is zero, positive or plus infinity. *)
Definition sf_nonneg (x : spec_float) : Prop :=
  match x with
  | S754_zero _ | S754_finite false _ _ | S754_infinity false => True
  | _ => False
  end.

(** A float that is positive or plus infinity. *)
Definition sf_pos (x : spec_float) : Prop :=
  match x with
  | S754_finite false _ _ | S754_infinity false => True
  | _ => False
  end.

(** ** Quantized colour keys and their packed 12-byte view *)

Definition vec3 : Type := float * float * float.
Definition key3 : Type := Z * Z * Z.
Definition packed : Type := list Z.

(** The four bytes of an int32, least significant first. *)
Definition le_bytes32 (z : Z) : list Z :=
  let u := z mod 2 ^ 32 in
  [u mod 256; (u / 2 ^ 8) mod 256; (u / 2 ^ 16) mod 256; (u / 2 ^ 24) mod 256].

(** [np.ascontiguousarray(colors_quant).view(np.void 12)]: one row of
    three int32 seen as twelve raw bytes. *)
Definition pack (c : key3) : packed :=
  let '(x, y, z) := c in le_bytes32 x ++ le_bytes32 y ++ le_bytes32 z.

(** Order of numpy's void items: bytewise, as memcmp. *)
Fixpoint bytes_le (a b : packed) : bool :=
  match a, b with
  | [], _ => true
  | _ :: _, [] => false
  | x :: a', y :: b' => (x <? y) || ((x =? y) && bytes_le a' b')
  end.

Definition in_int32 (c : key3) : Prop :=
  let '(x, y, z) := c in
  (F64.INT32_MIN ≤ x ≤ F64.INT32_MAX) ∧ (F64.INT32_MIN ≤ y ≤ F64.INT32_MAX)
  ∧ (F64.INT32_MIN ≤ z ≤ F64.INT32_MAX).

(** The literal [1e-6] of the source: the float64 nearest to it. *)
Definition EPS : float := 0x1.0c6f7a0b5ed8dp-20%float.

(** Step 1 of [prism_sampling], one row.  [np.sum] over the three
    components accumulates them left to right. *)
Definition sum_colors (c : vec3) : float :=
  let '(r, g, b) := c in (r + g + b + EPS)%float.

Definition colors_to_bin (use_chromaticity : bool) (c : vec3) : vec3 :=
  let '(r, g, b) := c in
  if use_chromaticity then
    let s := sum_colors c in
    (r / s * 255, g / s * 255, b / s * 255)%float
  else (r * 255, g * 255, b * 255)%float.

(** Step 2, one row. *)
Definition quantize (quantization : float) (c : vec3) : key3 :=
  let '(x, y, z) := c in
  let q v := F64.astype_int32 (F64.rint (v / quantization)%float) in
  (q x, q y, q z).

Definition color_bin (use_chromaticity : bool) (quantization : float) (c : vec3) : key3 :=
  quantize quantization (colors_to_bin use_chromaticity c).

(** A colour uniformly brightened or darkened by the factor [t]. *)
Definition scale_color (t : float) (c : vec3) : vec3 :=
  let '(r, g, b) := c in (t * r, t * g, t * b)%float.

(** ** The numpy random state *)

(** [random_interval s max] is the generator's draw of an integer in
    [0, max], with the state it leaves. *)
Class RandomState := {
  rng_state : Type;
  random_interval : rng_state → nat → nat * rng_state;
  random_interval_le : ∀ s max, ((random_interval s max).1 ≤ max)%nat
}.

Definition swap (x : list nat) (i j : nat) : list nat :=
  match x !! i, x !! j with
  | Some a, Some b => <[i:=b]> (<[j:=a]> x)
  | _, _ => x
  end.

(** [np.random.shuffle] on a one-dimensional array:
    [for i in reversed(range(1, n)): j = random_interval(i); swap x[i], x[j]]. *)
Fixpoint shuffle_from `{RS : RandomState} (i : nat) (x : list nat) (s : rng_state)
    : list nat * rng_state :=
  match i with
  | O => (x, s)
  | S i' => let '(j, s') := random_interval s i in shuffle_from i' (swap x i j) s'
  end.

Definition shuffle `{RS : RandomState} (x : list nat) (s : rng_state) : list nat * rng_state :=
  shuffle_from (length x - 1) x s.

(** ** Point clouds, the heap and the exceptions *)

Record PointCloud := {
  points : list vec3;
  colors : list vec3;
  normals : list vec3
}.

(** A new [o3d.geometry.PointCloud()]. *)
Definition empty_cloud : PointCloud := {| points := []; colors := []; normals := [] |}.

(** Open3D's [PointCloud::HasNormals]. *)
Definition has_normals (c : PointCloud) : bool :=
  bool_decide (0 < length (points c) ∧ length (normals c) = length (points c))%nat.

(** Open3D's [PointCloud::HasColors], the guard of [process_file]. *)
Definition has_colors (c : PointCloud) : bool :=
  bool_decide (0 < length (points c) ∧ length (colors c) = length (points c))%nat.

Definition loc : Type := positive.
Abbreviation heap := (gmap loc PointCloud).

(** [UnboundReference] never arises in Python, where a reference always
    has its object; it makes the model total on any heap and location. *)
Inductive exn := IndexError | ValueError | UnboundReference.

Inductive result (A : Type) :=
  | Return (a : A)
  | Raise (e : exn).
Arguments Return {A} a.
Arguments Raise {A} e.

#[global] Instance result_bind : MBind result := λ A B f r,
  match r with
  | Return a => f a
  | Raise e => Raise e
  end.

Definition index_error {A} (o : option A) : result A :=
  match o with
  | Some a => Return a
  | None => Raise IndexError
  end.

(** Elementwise [a - b] of two integer arrays of one shape; numpy raises
    ValueError on shapes that do not broadcast. *)
Definition subtract (a b : list nat) : result (list Z) :=
  if decide (length a = length b)
  then Return (zip_with (λ x y, Z.of_nat x - Z.of_nat y) a b)
  else Raise ValueError.

(** Elementwise [a < k] of an integer array and a Python int. *)
Definition less_scalar (a : list Z) (k : Z) : list bool :=
  (λ c, bool_decide (c < k)) <$> a.

(** ** The sampler *)

Section Sampler.
Context `{RS : RandomState} `{AS : !ArgSort bytes_le}.

(** Step 4 of [prism_sampling]: from the sorted keys to
    [keep_mask_in_sorted]. *)
Definition stratified_mask (sorted_colors : list packed) (k : Z) : result (list bool) :=
  let group_starts_expanded := group_starts bytes_le sorted_colors in
  let current_indices := Np.arange (length sorted_colors) in
  intra_group_counter ← subtract current_indices group_starts_expanded;
  Return (less_scalar intra_group_counter k).

(** Steps 3 to 5 of [prism_sampling]: from the packed keys, the number
    of points and [k] to [final_original_indices]. *)
Definition select_indices (colors_packed : list packed) (N : nat) (k : Z)
    (s : rng_state) : result (list nat) * rng_state :=
  let '(shuffled_indices, s') := shuffle (Np.arange N) s in
  (colors_packed_shuffled ← index_error (Np.take colors_packed shuffled_indices);
   let sort_order := argsort colors_packed_shuffled in
   sorted_colors ← index_error (Np.take colors_packed_shuffled sort_order);
   keep_mask_in_sorted ← stratified_mask sorted_colors k;
   kept ← index_error (Np.mask_index sort_order keep_mask_in_sorted);
   index_error (Np.take shuffled_indices kept),
   s').


(** The gathers that fill the new cloud. *)
Definition gather_cloud (c : PointCloud) (final_original_indices : list nat)
    : result PointCloud :=
  new_points ← index_error (Np.take (points c) final_original_indices);
  new_colors ← index_error (Np.take (colors c) final_original_indices);
  if has_normals c then
    new_normals ← index_error (Np.take (normals c) final_original_indices);
    Return {| points := new_points; colors := new_colors; normals := new_normals |}
  else Return {| points := new_points; colors := new_colors; normals := [] |}.

(** [prism_sampling(pcd, k, quantization, use_chromaticity)] on a heap
    [h] and a random state [s]: the reference returned (or the
    exception raised), with the heap and the random state left behind.
    The new cloud is allocated at a fresh location, before the gathers;
    these cannot fail once the indices are selected (lemma
    [gather_after_select]), so the branch that leaves the new object
    behind an exception is never taken. *)
Definition prism_sampling (pcd : loc) (k : Z) (quantization : float)
    (use_chromaticity : bool) (h : heap) (s : rng_state)
    : result loc * heap * rng_state :=
  match h !! pcd with
  | None => (Raise UnboundReference, h, s)
  | Some c =>
      if decide (length (points c) = 0%nat) then (Return pcd, h, s)
      else
        let colors_quant := color_bin use_chromaticity quantization <$> colors c in
        let colors_packed := pack <$> colors_quant in
        let '(r, s') := select_indices colors_packed (length (points c)) k s in
        match r with
        | Raise e => (Raise e, h, s')
        | Return final_original_indices =>
            let limited_pcd := fresh (dom h) in
            match gather_cloud c final_original_indices with
            | Raise e => (Raise e, <[limited_pcd := empty_cloud]> h, s')
            | Return out => (Return limited_pcd, <[limited_pcd := out]> h, s')
            end
        end
  end.
End Sampler.

(** What a call leaves to its caller: the cloud behind the reference
    returned (or the exception), and the random state. *)
Definition outcome `{RS : RandomState} (r : result loc * heap * rng_state)
    : result (option PointCloud) * rng_state :=
  let '(res, h', s') := r in
  (match res with Return l => Return (h' !! l) | Raise e => Raise e end, s').

(** Number of colours of a list that fall in the bin [κ], and number of
    bins a list occupies. *)
Definition bin_count (use_chromaticity : bool) (quantization : float)
    (κ : key3) (l : list vec3) : nat :=
  occ κ (color_bin use_chromaticity quantization <$> l).

Definition distinct_bins (use_chromaticity : bool) (quantization : float)
    (l : list vec3) : nat :=
  length (remove_dups (color_bin use_chromaticity quantization <$> l)).

(** Negation of an int32 as numpy computes it, with wrap-around: the
    opposite of INT32_MIN is INT32_MIN. *)
Definition neg32 (z : Z) : Z :=
  if bool_decide (z = F64.INT32_MIN) then F64.INT32_MIN else - z.

Definition neg_key (c : key3) : key3 :=
  let '(x, y, z) := c in (neg32 x, neg32 y, neg32 z).

(** ** The program around the sampler *)

(** What [process_file] and [main] ask of Open3D's file functions and
    outlier filter, of [os], [glob] and [time]: the world outside the
    interpreter, which the program reads and changes through these calls
    only.  Paths are Python strings.  [makedirs] is [None] where
    [os.makedirs] raises OSError; the other calls return. *)
Class Host := {
  world : Type;
  (** [time.time()] *)
  time_time : world → float * world;
  (** [o3d.io.read_point_cloud(path)] *)
  read_point_cloud : string → world → PointCloud;
  (** [o3d.io.write_point_cloud(path, cloud)] and the flag it returns *)
  write_point_cloud : string → PointCloud → world → bool * world;
  (** the index list [ind] of
      [cloud.remove_statistical_outlier(nb_neighbors, std_ratio)] *)
  statistical_inliers : PointCloud → nat → float → list nat;
  (** [os.path.isfile], [os.path.isdir], [os.path.exists], [os.makedirs] *)
  isfile : string → world → bool;
  isdir : string → world → bool;
  path_exists : string → world → bool;
  makedirs : string → world → option world;
  (** [glob.glob(pattern, recursive=True)] *)
  glob : string → world → list string;
  (** [os.path.basename], [os.path.dirname], [os.path.join] and
      [os.path.relpath], which looks at the working directory *)
  basename : string → string;
  dirname : string → string;
  join : string → string → string;
  relpath : string → string → world → string
}.

(** Open3D's [PointCloud::SelectByIndex]: a mask over the points, set at
    every index given, then one pass that copies the points marked, with
    their colours and normals where the cloud has them.
    [remove_statistical_outlier] returns this selection of its inliers. *)
Definition select_by_index (c : PointCloud) (indices : list nat) : PointCloud :=
  let mask := (λ i, bool_decide (i ∈ indices)) <$> Np.arange (length (points c)) in
  {| points := Np.compress mask (points c);
     colors := if has_colors c then Np.compress mask (colors c) else [];
     normals := if has_normals c then Np.compress mask (normals c) else [] |}.

(** The lines the program prints, by their interpolated values. *)
Inductive event :=
  | Skipping (name : string)
  | Reduced (name chroma_tag : string) (quantization : float) (k : Z)
      (duration : float) (original_points final_points : nat)
  | Found (n : nat) (input : string)
  | NotFound (input : string).

(** The state a run goes through: the point clouds allocated, numpy's
    global generator, the world outside and the lines printed so far. *)
Record state {RS : RandomState} {HO : Host} := {
  objects : heap;
  generator : rng_state;
  outside : world;
  stdout : list event
}.

(** The parsed command line. *)
Record Args := {
  args_input : string;
  args_output : string;
  args_k : Z;
  args_quantization : float;
  args_no_chromaticity : bool
}.

(** How [main] ends: it returns, or an exception leaves it. *)
Inductive exit := Finished | Uncaught (e : exn) | UncaughtOSError.

Section Program.
Context `{RS : RandomState} `{AS : !ArgSort bytes_le} `{HO : Host}.

(** [load_point_cloud(file_path)] *)
Definition load_point_cloud (file_path : string) (w : world) : PointCloud :=
  read_point_cloud file_path w.

(** [process_file(input_path, output_path, k, quantization, use_chromaticity)] *)
Definition process_file (input_path output_path : string) (k : Z) (quantization : float)
    (use_chromaticity : bool) (σ : state) : result unit * state :=
  let '(start_time, w) := time_time (outside σ) in
  let c := load_point_cloud input_path w in
  let pcd := fresh (dom (objects σ)) in
  let h1 := <[pcd := c]> (objects σ) in
  if negb (has_colors c) then
    (Return (),
     {| objects := h1; generator := generator σ; outside := w;
        stdout := stdout σ ++ [Skipping (basename input_path)] |})
  else
    let original_points := length (points c) in
    let clean_pcd := fresh (dom h1) in
    let h2 := <[clean_pcd := select_by_index c (statistical_inliers c 100 2%float)]> h1 in
    let '(r, h3, s') :=
      prism_sampling clean_pcd k quantization use_chromaticity h2 (generator σ) in
    match r with
    | Raise e =>
        (Raise e, {| objects := h3; generator := s'; outside := w; stdout := stdout σ |})
    | Return reduced_pcd =>
        match h3 !! reduced_pcd with
        | None =>
            (Raise UnboundReference,
             {| objects := h3; generator := s'; outside := w; stdout := stdout σ |})
        | Some reduced =>
            let '(_, w1) := write_point_cloud output_path reduced w in
            let '(end_time, w2) := time_time w1 in
            let duration := (end_time - start_time)%float in
            let final_points := length (points reduced) in
            let chroma_tag := if use_chromaticity then "Chroma"%string else "RGB"%string in
            (Return (),
             {| objects := h3; generator := s'; outside := w2;
                stdout := stdout σ ++ [Reduced (basename input_path) chroma_tag quantization k
                                         duration original_points final_points] |})
        end
    end.

(** [if not os.path.exists(path): os.makedirs(path)] *)
Definition ensure_dir (path : string) (w : world) : option world :=
  if path_exists path w then Some w else makedirs path w.

(** The loop of [main] over the files found. *)
Fixpoint process_files (ply_files : list string) (args : Args) (use_chromaticity : bool)
    (σ : state) : exit * state :=
  match ply_files with
  | [] => (Finished, σ)
  | input_path :: rest =>
      let rel_path := relpath input_path (args_input args) (outside σ) in
      let output_path := join (args_output args) rel_path in
      let output_dir := dirname output_path in
      match ensure_dir output_dir (outside σ) with
      | None => (UncaughtOSError, σ)
      | Some w =>
          let σ1 := {| objects := objects σ; generator := generator σ; outside := w;
                       stdout := stdout σ |} in
          match process_file input_path output_path (args_k args) (args_quantization args)
                  use_chromaticity σ1 with
          | (Raise e, σ2) => (Uncaught e, σ2)
          | (Return _, σ2) => process_files rest args use_chromaticity σ2
          end
      end
  end.

(** [main()], from the parsed arguments on. *)
Definition main (args : Args) (σ : state) : exit * state :=
  let use_chromaticity := negb (args_no_chromaticity args) in
  if isfile (args_input args) (outside σ) then
    match process_file (args_input args) (args_output args) (args_k args)
            (args_quantization args) use_chromaticity σ with
    | (Raise e, σ1) => (Uncaught e, σ1)
    | (Return _, σ1) => (Finished, σ1)
    end
  else if isdir (args_input args) (outside σ) then
    match ensure_dir (args_output args) (outside σ) with
    | None => (UncaughtOSError, σ)
    | Some w =>
        let ply_files := glob (join (args_input args) "**/*.ply") w in
        let σ1 := {| objects := objects σ; generator := generator σ; outside := w;
                     stdout := stdout σ ++ [Found (length ply_files) (args_input args)] |} in
        process_files ply_files args use_chromaticity σ1
    end
  else
    (Finished,
     {| objects := objects σ; generator := generator σ; outside := outside σ;
        stdout := stdout σ ++ [NotFound (args_input args)] |}).
End Program.

(** ** Data to run the sampler on *)

(** One draw of a generator that replays a tape of raw draws, each
    reduced to the interval asked for. *)
Definition tape_interval (s : list nat) (max : nat) : nat * list nat :=
  (Nat.modulo (hd 0%nat s) (S max), tl s).

(** The first example of the specification: three red points and three
    green ones. *)
Definition red : vec3 := (1, 0, 0)%float.
Definition green : vec3 := (0, 1, 0)%float.
Definition six_points : PointCloud := {|
  points := [(0,0,0); (1,0,0); (2,0,0); (3,0,0); (4,0,0); (5,0,0)]%float;
  colors := [red; red; red; green; green; green];
  normals := []
|}.
Definition one_cloud (c : PointCloud) : heap := {[ 1%positive := c ]}.

(** What the sampler makes of [six_points] with [k = 1] on the tape
    3, 1, 4, 1, 5. *)
Definition sampled_two : PointCloud := {|
  points := [(5, 0, 0); (2, 0, 0)]%float;
  colors := [green; red];
  normals := []
|}.

(** A small world to run the program in: the files by path (the latest
    written first), the directories, and the clock readings to come. *)
Record disk := {
  disk_files : list (string * PointCloud);
  disk_dirs : list string;
  disk_clock : list float
}.

Fixpoint has_slash (s : string) : bool :=
  match s with
  | EmptyString => false
  | String a s' => bool_decide (String a EmptyString = "/"%string) || has_slash s'
  end.

Fixpoint posix_basename (s : string) : string :=
  match s with
  | EmptyString => EmptyString
  | String a s' =>
      if has_slash s' then posix_basename s'
      else if bool_decide (String a EmptyString = "/"%string) then s' else s
  end.

Fixpoint posix_dirname (s : string) : string :=
  match s with
  | EmptyString => EmptyString
  | String a s' => if has_slash s' then String a (posix_dirname s') else EmptyString
  end.

Definition disk_read (path : string) (w : disk) : PointCloud :=
  from_option (λ f, f.2.2) empty_cloud (list_find (λ f, f.1 = path) (disk_files w)).

(** Open3D writes no file for a cloud without points. *)
Definition disk_write (path : string) (c : PointCloud) (w : disk) : bool * disk :=
  if bool_decide (points c = []) then (false, w)
  else (true, {| disk_files := (path, c) :: disk_files w; disk_dirs := disk_dirs w;
                 disk_clock := disk_clock w |}).

(** The files below the directory of the pattern whose names end in
    [.ply]. *)
Definition disk_glob (pattern : string) (w : disk) : list string :=
  let dir := String.substring 0 (String.length pattern - 8) pattern in
  filter (λ p, String.prefix dir p = true
               ∧ String.substring (String.length p - 4) 4 p = ".ply"%string)
    (disk_files w).*1.

Definition DiskHost : Host := {|
  world := disk;
  time_time := λ w,
    (hd 0%float (disk_clock w),
     {| disk_files := disk_files w; disk_dirs := disk_dirs w;
        disk_clock := tl (disk_clock w) |});
  read_point_cloud := disk_read;
  write_point_cloud := disk_write;
  statistical_inliers := λ c _ _, Np.arange (length (points c));
  isfile := λ p w, bool_decide (p ∈ (disk_files w).*1);
  isdir := λ p w, bool_decide (p ∈ disk_dirs w);
  path_exists := λ p w, bool_decide (p ∈ (disk_files w).*1 ∨ p ∈ disk_dirs w);
  makedirs := λ p w,
    Some {| disk_files := disk_files w; disk_dirs := p :: disk_dirs w;
            disk_clock := disk_clock w |};
  glob := disk_glob;
  basename := posix_basename;
  dirname := posix_dirname;
  join := λ a b, (a +:+ "/" +:+ b)%string;
  relpath := λ p start _,
    String.substring (S (String.length start)) (String.length p - S (String.length start)) p
|}.

(** A directory with the six points and a cloud without colours. *)
Definition scans : disk := {|
  disk_files :=
    [("scans/six.ply"%string, six_points);
     ("scans/bare.ply"%string,
      {| points := points six_points; colors := []; normals := [] |})];
  disk_dirs := ["scans"%string];
  disk_clock := [10; 12.5; 13; 13.25; 14; 15]%float
|}.

(** * Properties *)

(** ** Indexing, masks and repeats *)

Section NpFacts.
Context {A : Type}.
Implicit Types (a b : list A) (idx : list nat) (m : list bool).

Lemma take_Some a idx b :
  Np.take a idx = Some b ↔ Forall2 (λ i x, a !! i = Some x) idx b.
Proof. apply mapM_Some. Qed.

Lemma take_length a idx b : Np.take a idx = Some b → length b = length idx.
Proof. intros H%take_Some. symmetry. by eapply Forall2_length. Qed.

Lemma take_lookup a idx b p i :
  Np.take a idx = Some b → idx !! p = Some i → b !! p = a !! i.
Proof.
  intros H%take_Some Hi.
  destruct (Forall2_lookup_l _ _ _ _ _ H Hi) as (x & -> & ->). done.
Qed.

Lemma take_in_range a idx :
  Forall (λ i, i < length a)%nat idx → is_Some (Np.take a idx).
Proof.
  intros H. apply mapM_is_Some. eapply Forall_impl; [apply H|].
  intros i Hi. by apply lookup_lt_is_Some_2.
Qed.

Lemma take_Some_range a idx b :
  Np.take a idx = Some b → Forall (λ i, i < length a)%nat idx.
Proof.
  intros H%take_Some. induction H; constructor; eauto using lookup_lt_Some.
Qed.

Lemma take_arange a : Np.take a (Np.arange (length a)) = Some a.
Proof.
  apply take_Some. unfold Np.arange.
  induction a as [|x a IH] using rev_ind; [constructor|].
  rewrite length_app, Nat.add_1_r, seq_S. simpl.
  apply Forall2_app.
  - eapply Forall2_impl; [apply IH|]. intros i y Hy. simpl in Hy.
    by rewrite lookup_app_l by eauto using lookup_lt_Some.
  - constructor; [|constructor]. by rewrite list_lookup_middle.
Qed.

Lemma take_compose a i1 i2 b i3 :
  Np.take a i1 = Some b → Np.take i1 i2 = Some i3 → Np.take b i2 = Np.take a i3.
Proof.
  intros Hb H. apply Forall2_mapM_ext. apply mapM_Some in H.
  eapply Forall2_impl; [apply H|]. intros q j Hq. simpl in Hq.
  by eapply take_lookup.
Qed.

Lemma take_compress a idx b m :
  Np.take a idx = Some b → Np.take a (Np.compress m idx) = Some (Np.compress m b).
Proof.
  rewrite !take_Some. intros H. revert m.
  induction H as [|i x idx b Hi _ IH]; intros [|[] m]; simpl; try constructor; auto.
Qed.

Lemma compress_app m1 m2 a1 a2 :
  length m1 = length a1 →
  Np.compress (m1 ++ m2) (a1 ++ a2) = Np.compress m1 a1 ++ Np.compress m2 a2.
Proof.
  revert a1. induction m1 as [|[] m1 IH]; intros [|x a1] ?; simplify_eq/=; try done.
  - f_equal. auto.
  - auto.
Qed.

Lemma compress_sublist m a : Np.compress m a `sublist_of` a.
Proof.
  revert a. induction m as [|[] m IH]; intros [|x a]; simpl;
    try constructor; auto using sublist_nil_l.
Qed.

Lemma repeat_cons (v : A) vs c cs :
  Np.repeat (v :: vs) (c :: cs) = replicate c v ++ Np.repeat vs cs.
Proof. done. Qed.
End NpFacts.

Lemma take_fmap {A B} (f : A → B) (a : list A) idx b :
  Np.take a idx = Some b → Np.take (f <$> a) idx = Some (f <$> b).
Proof.
  rewrite !take_Some. intros H. apply Forall2_fmap_r.
  eapply Forall2_impl; [apply H|]. intros i x Hx. simpl in *.
  by rewrite list_lookup_fmap, Hx.
Qed.

Lemma compress_fmap {A B} (f : A → B) m (a : list A) :
  Np.compress m (f <$> a) = f <$> Np.compress m a.
Proof.
  revert a. induction m as [|[] m IH]; intros [|x a]; simpl; try done.
  by rewrite IH.
Qed.

Lemma repeat_fmap {A B} (f : A → B) (vs : list A) cs :
  Np.repeat (f <$> vs) cs = f <$> Np.repeat vs cs.
Proof.
  unfold Np.repeat. revert cs.
  induction vs as [|v vs IH]; intros [|c cs]; simpl; try done.
  by rewrite fmap_app, fmap_replicate, IH.
Qed.

Lemma diff_fmap_add (d : nat) (a : list nat) :
  Np.diff (Nat.add d <$> a) = Np.diff a.
Proof.
  unfold Np.diff. destruct a as [|x a]; [done|]. simpl.
  revert x. induction a as [|y a IH]; intros x; simpl; [done|].
  f_equal; [lia|apply IH].
Qed.

Lemma nonzero_cons (b : bool) (m : list bool) :
  Np.nonzero (b :: m) = (if b then [0%nat] else []) ++ (S <$> Np.nonzero m).
Proof.
  unfold Np.nonzero, Np.arange. simpl. rewrite <-fmap_S_seq, compress_fmap.
  by destruct b.
Qed.

(** ** Stable sorting and [np.unique] on sorted keys *)

Section KeysFacts.
Context {K : Type} `{EqDecision K} (le : K → K → bool).
Context `{!Total (key_le le)} `{!Transitive (key_le le)} `{!AntiSymm (=) (key_le le)}.

Abbreviation pair_le := (λ p q : nat * K, key_le le p.2 q.2).

Lemma insert_pair_perm p l : insert_pair le p l ≡ₚ p :: l.
Proof.
  induction l as [|q l IH]; simpl; [done|].
  destruct (le p.2 q.2); [done|]. rewrite IH. apply Permutation_swap.
Qed.

Lemma insert_pair_sorted p l : Sorted pair_le l → Sorted pair_le (insert_pair le p l).
Proof.
  induction 1 as [|q l Hl IH Hq]; simpl; [by repeat constructor|].
  destruct (le p.2 q.2) eqn:Hpq.
  - repeat constructor; done.
  - assert (key_le le q.2 p.2) as Hqp.
    { destruct (total (key_le le) p.2 q.2) as [H'|H']; [|done].
      unfold key_le in H'. congruence. }
    constructor; [done|].
    destruct l as [|r l]; simpl in *; [by constructor|].
    destruct (le p.2 r.2); constructor; [done|]. by inversion Hq.
Qed.

Lemma stable_sort_pairs_perm ar :
  stable_sort_pairs le ar ≡ₚ zip (Np.arange (length ar)) ar.
Proof.
  unfold stable_sort_pairs. induction (zip _ ar) as [|p l IH]; simpl; [done|].
  by rewrite insert_pair_perm, IH.
Qed.

Lemma stable_sort_pairs_sorted ar : Sorted pair_le (stable_sort_pairs le ar).
Proof.
  unfold stable_sort_pairs. induction (zip _ ar) as [|p l IH]; simpl.
  - constructor.
  - by apply insert_pair_sorted.
Qed.

Lemma foldr_insert_pair_sorted l : Sorted pair_le l → foldr (insert_pair le) [] l = l.
Proof.
  induction 1 as [|p l Hl IH Hp]; simpl; [done|]. rewrite IH.
  destruct Hp as [|q l Hpq]; simpl; [done|]. unfold key_le in Hpq. by rewrite Hpq.
Qed.

Lemma zip_arange_sorted (ar : list K) :
  Sorted (key_le le) ar → Sorted pair_le (zip (Np.arange (length ar)) ar).
Proof.
  unfold Np.arange. intros Hs. generalize 0%nat.
  induction Hs as [|x ar Har IH Hx]; intros start; simpl; constructor; [apply IH|].
  destruct Hx; simpl; by constructor.
Qed.

Lemma stable_sort_pairs_id ar :
  Sorted (key_le le) ar → stable_sort_pairs le ar = zip (Np.arange (length ar)) ar.
Proof. intros. by apply foldr_insert_pair_sorted, zip_arange_sorted. Qed.

Lemma stable_argsort_perm ar : stable_argsort le ar ≡ₚ Np.arange (length ar).
Proof.
  unfold stable_argsort. rewrite stable_sort_pairs_perm.
  rewrite fst_zip; [done|]. unfold Np.arange. by rewrite length_seq.
Qed.

Lemma stable_argsort_take ar :
  Np.take ar (stable_argsort le ar) = Some ((stable_sort_pairs le ar).*2).
Proof.
  apply take_Some, Forall2_fmap, Forall_Forall2_diag, Forall_forall.
  intros [i x] Hix. simpl. rewrite stable_sort_pairs_perm in Hix.
  apply list_elem_of_lookup in Hix as [p Hp].
  apply lookup_zip_with_Some in Hp as (i' & x' & [= -> ->] & Hi & Hx).
  unfold Np.arange in Hi. apply lookup_seq in Hi as [-> _]. done.
Qed.

Lemma stable_argsort_sorted ar sorted :
  Np.take ar (stable_argsort le ar) = Some sorted → Sorted (key_le le) sorted.
Proof.
  rewrite stable_argsort_take. intros [= <-].
  induction (stable_sort_pairs_sorted ar) as [|p l Hl IH Hp]; simpl; constructor;
    [done|]. destruct Hp; simpl; by constructor.
Qed.
End KeysFacts.

(** ** Runs of equal keys *)

Section Runs.
Context {K : Type} `{EqDecision K}.

Lemma run_split (x : K) t :
  ∃ c rest, t = replicate c x ++ rest ∧ head rest ≠ Some x.
Proof.
  induction t as [|y t (c & rest & -> & Hr)].
  - by exists 0%nat, [].
  - destruct (decide (y = x)) as [->|Hy].
    + by exists (S c), rest.
    + exists 0%nat, (y :: replicate c x ++ rest). split; [done|]. simpl. congruence.
Qed.

Lemma change_mask_run (x : K) c rest :
  head rest ≠ Some x →
  change_mask (replicate (S c) x ++ rest)
  = true :: replicate c false ++ change_mask rest.
Proof.
  intros Hr. simpl. f_equal.
  change (x :: replicate c x ++ rest) with (replicate (S c) x ++ rest).
  rewrite replicate_S_end, <-(assoc_L (++)). simpl.
  rewrite zip_with_app by (by rewrite !length_replicate). f_equal.
  - induction c as [|c IHc]; simpl; [done|]. rewrite IHc.
    f_equal. apply bool_decide_eq_false. intros Hne. by apply Hne.
  - destruct rest as [|y r]; simpl; [done|]. f_equal.
    apply bool_decide_eq_true. simpl in Hr. congruence.
Qed.

Lemma change_mask_length (ar : list K) : length (change_mask ar) = length ar.
Proof.
  destruct ar as [|x t]; simpl; [done|]. rewrite length_zip_with. simpl. lia.
Qed.

Lemma nonzero_false_prefix c m :
  Np.nonzero (replicate c false ++ m) = Nat.add c <$> Np.nonzero m.
Proof.
  induction c as [|c IH].
  - simpl. by rewrite list_fmap_id.
  - change (replicate (S c) false ++ m) with (false :: replicate c false ++ m).
    rewrite nonzero_cons, IH. simpl. by rewrite <-list_fmap_compose.
Qed.

Lemma nonzero_run c m :
  Np.nonzero (true :: replicate c false ++ m) = 0%nat :: (Nat.add (S c) <$> Np.nonzero m).
Proof.
  rewrite nonzero_cons, nonzero_false_prefix. simpl. by rewrite <-list_fmap_compose.
Qed.

Lemma mask_group_starts_run c m :
  m = [] ∨ head m = Some true →
  mask_group_starts (true :: replicate c false ++ m)
  = replicate (S c) 0%nat ++ (Nat.add (S c) <$> mask_group_starts m).
Proof.
  intros Hm. unfold mask_group_starts. rewrite nonzero_run.
  set (idx := Np.nonzero m ++ [length m]).
  assert (head idx = Some 0%nat) as Hhd.
  { subst idx. destruct Hm as [->|Hm]; [done|].
    destruct m as [|[] m]; done. }
  assert ((0%nat :: (Nat.add (S c) <$> Np.nonzero m))
            ++ [length (true :: replicate c false ++ m)]
          = 0%nat :: (Nat.add (S c) <$> idx)) as ->.
  { subst idx. simpl. rewrite fmap_app, length_app, length_replicate. done. }
  destruct idx as [|i idx'] eqn:Hidx; [done|].
  injection Hhd as ->.
  assert (Np.diff (0%nat :: (Nat.add (S c) <$> 0%nat :: idx'))
          = S c :: Np.diff (0%nat :: idx')) as ->.
  { rewrite <-(diff_fmap_add (S c) (0%nat :: idx')).
    unfold Np.diff. cbn [tail fmap list_fmap zip_with]. f_equal. lia. }
  rewrite repeat_cons. f_equal. by rewrite repeat_fmap.
Qed.

Lemma not_elem_head (x : K) rest : x ∉ rest → head rest ≠ Some x.
Proof. destruct rest as [|y r]; simpl; [done|]. intros Hx [= ->]. set_solver. Qed.

Lemma group_starts_run (x : K) c rest :
  head rest ≠ Some x →
  mask_group_starts (change_mask (replicate (S c) x ++ rest))
  = replicate (S c) 0%nat ++ (Nat.add (S c) <$> mask_group_starts (change_mask rest)).
Proof.
  intros Hr. rewrite change_mask_run by done. apply mask_group_starts_run.
  destruct rest; [by left|by right].
Qed.

Lemma group_starts_length (ar : list K) :
  grouped ar → length (mask_group_starts (change_mask ar)) = length ar.
Proof.
  induction 1 as [|x c rest Hx _ IH]; [done|].
  rewrite group_starts_run by by apply not_elem_head.
  rewrite !length_app, length_fmap, !length_replicate. lia.
Qed.

Lemma run_counter_run (x : K) c rest :
  x ∉ rest → grouped rest →
  run_counter (replicate (S c) x ++ rest)
  = (Z.of_nat <$> seq 0 (S c)) ++ run_counter rest.
Proof.
  intros Hx Hg. unfold run_counter, Np.arange.
  rewrite group_starts_run by by apply not_elem_head.
  rewrite length_app, length_replicate, seq_app.
  rewrite zip_with_app by by rewrite length_seq, length_replicate.
  f_equal.
  - rewrite zip_with_replicate_r by by rewrite length_seq.
    apply list_fmap_ext. intros _ i _. simpl. lia.
  - replace (seq (0 + S c) (length rest))
      with (Nat.add (S c) <$> seq 0 (length rest))
      by (rewrite fmap_add_seq; f_equal; lia).
    rewrite zip_with_fmap_l, zip_with_fmap_r.
    apply zip_with_ext; [|done|done]. intros; lia.
Qed.

Lemma run_counter_length (ar : list K) : grouped ar → length (run_counter ar) = length ar.
Proof.
  intros Hg. unfold run_counter, Np.arange.
  rewrite length_zip_with, length_seq, group_starts_length by done. lia.
Qed.

Lemma compress_first_k (x : K) n k (a : nat) :
  Np.compress (less_scalar (Z.of_nat <$> seq a n) k) (replicate n x)
  = replicate (n `min` Z.to_nat (k - Z.of_nat a)) x.
Proof.
  unfold less_scalar. revert a. induction n as [|n IH]; intros a; [done|].
  csimpl. rewrite IH. case_bool_decide.
  - replace (Z.to_nat (k - Z.of_nat a)) with (S (Z.to_nat (k - Z.of_nat (S a)))) by lia.
    done.
  - replace (Z.to_nat (k - Z.of_nat a)) with 0%nat by lia.
    replace (Z.to_nat (k - Z.of_nat (S a))) with 0%nat by lia.
    by rewrite !Nat.min_0_r.
Qed.

Lemma occ_app (κ : K) l1 l2 : occ κ (l1 ++ l2) = (occ κ l1 + occ κ l2)%nat.
Proof. unfold occ. by rewrite filter_app, length_app. Qed.

Lemma occ_replicate (κ x : K) n :
  occ κ (replicate n x) = if decide (x = κ) then n else 0%nat.
Proof.
  unfold occ. induction n as [|n IH]; simpl; [by destruct (decide _)|].
  rewrite filter_cons. destruct (decide (x = κ)); simpl; by rewrite IH.
Qed.

Lemma occ_not_elem (κ : K) l : κ ∉ l → occ κ l = 0%nat.
Proof.
  unfold occ. induction l as [|y l IH]; [done|]. intros Hn.
  rewrite filter_cons. destruct (decide (y = κ)) as [->|]; [set_solver|].
  apply IH. set_solver.
Qed.

Lemma occ_le_length (κ : K) l : (occ κ l ≤ length l)%nat.
Proof. apply length_filter. Qed.

(** Keeping the positions whose counter is below [k] keeps, of every
    key, its first [k] occurrences. *)
Lemma keep_first_k_occ (ar : list K) k κ :
  grouped ar →
  occ κ (Np.compress (less_scalar (run_counter ar) k) ar)
  = (Z.to_nat k `min` occ κ ar)%nat.
Proof.
  induction 1 as [|x c rest Hx Hg IH]; [unfold occ; simpl; lia|].
  rewrite run_counter_run by done.
  unfold less_scalar. rewrite fmap_app.
  rewrite compress_app by by rewrite !length_fmap, length_seq, length_replicate.
  fold (less_scalar (Z.of_nat <$> seq 0 (S c)) k).
  fold (less_scalar (run_counter rest) k).
  rewrite compress_first_k, !occ_app, !occ_replicate, IH.
  destruct (decide (x = κ)) as [->|Hne]; [|lia].
  rewrite (occ_not_elem κ rest) by done. lia.
Qed.

(** The group start of a position is the first position that holds its
    key. *)
Lemma group_starts_first (ar : list K) p g :
  grouped ar →
  mask_group_starts (change_mask ar) !! p = Some g →
  (g ≤ p)%nat ∧ ar !! g = ar !! p ∧ ∀ q, (q < g)%nat → ar !! q ≠ ar !! p.
Proof.
  intros Hg. revert p g.
  induction Hg as [|x c rest Hx Hg IH]; intros p g; [done|].
  rewrite group_starts_run by by apply not_elem_head.
  destruct (decide (p < S c)%nat) as [Hp|Hp].
  - rewrite lookup_app_l by by rewrite length_replicate.
    intros [-> _]%lookup_replicate. split; [lia|]. split; [|lia].
    rewrite !lookup_app_l by (rewrite length_replicate; lia).
    rewrite !(lookup_replicate_2 (S c)) by lia. done.
  - rewrite lookup_app_r by (rewrite length_replicate; lia).
    rewrite length_replicate, list_lookup_fmap.
    destruct (mask_group_starts (change_mask rest) !! (p - S c)%nat) as [g'|] eqn:Hg';
      [|done].
    intros [= <-]. destruct (IH _ _ Hg') as (Hle & Heq & Hfirst).
    assert (∀ i, (S c ≤ i)%nat →
              (replicate (S c) x ++ rest) !! i = rest !! (i - S c)%nat) as Hr.
    { intros i Hi. rewrite lookup_app_r by (rewrite length_replicate; lia).
      by rewrite length_replicate. }
    split; [lia|]. split.
    + rewrite !Hr by lia. rewrite <-Heq. f_equal. lia.
    + intros q Hq. rewrite (Hr p) by lia.
      destruct (decide (q < S c)%nat) as [Hq'|Hq'].
      * rewrite lookup_app_l by (rewrite length_replicate; lia).
        rewrite (lookup_replicate_2 (S c)) by lia.
        intros Hxp. apply Hx. symmetry in Hxp. by eapply list_elem_of_lookup_2.
      * rewrite Hr by lia. apply Hfirst. lia.
Qed.


End Runs.

(** ** Sorted keys come in runs *)

Section SortedRuns.
Context {K : Type} `{EqDecision K} (le : K → K → bool).
Context `{!Total (key_le le)} `{!Transitive (key_le le)} `{!AntiSymm (=) (key_le le)}.

Lemma sorted_grouped ar : Sorted (key_le le) ar → grouped ar.
Proof.
  intros Hs%Sorted_StronglySorted; [|done].
  remember (length ar) as n eqn:Hn. revert ar Hn Hs.
  induction n as [n IH] using lt_wf_ind. intros [|x t] -> Hs; [constructor|].
  destruct (run_split x t) as (c & rest & -> & Hr).
  change (x :: replicate c x ++ rest) with (replicate (S c) x ++ rest) in *.
  pose proof (StronglySorted_app_1_r _ _ _ Hs) as Hrest.
  constructor.
  - intros Hx. destruct rest as [|y r]; [by apply elem_of_nil in Hx|].
    simpl in Hr. assert (y ≠ x) as Hyx by congruence.
    apply elem_of_cons in Hx as [->|Hx]; [done|].
    apply StronglySorted_cons in Hrest as [Hy _].
    rewrite Forall_forall in Hy. specialize (Hy _ Hx).
    assert (key_le le x y) as Hxy.
    { eapply (StronglySorted_app_1_elem_of _ _ _ _ _ Hs); [|left].
      simpl. left. }
    apply Hyx. by apply (anti_symm (key_le le)).
  - eapply IH; [|done|done]. rewrite length_app. simpl. lia.
Qed.

Lemma unique_sorted ar :
  Sorted (key_le le) ar →
  unique le ar
  = (Np.compress (change_mask ar) ar, Np.nonzero (change_mask ar),
     Np.diff (Np.nonzero (change_mask ar) ++ [length ar])).
Proof.
  intros Hs. unfold unique. rewrite stable_sort_pairs_id by done.
  assert (length (Np.arange (length ar)) = length ar) as Hl
    by (unfold Np.arange; by rewrite length_seq).
  rewrite fst_zip, snd_zip by lia.
  unfold Np.nonzero. by rewrite change_mask_length.
Qed.

Lemma group_starts_sorted (ar : list K) :
  Sorted (key_le le) ar → group_starts le ar = mask_group_starts (change_mask ar).
Proof.
  intros Hs. unfold group_starts. rewrite unique_sorted by done.
  unfold mask_group_starts. by rewrite change_mask_length.
Qed.
End SortedRuns.

(** ** The packed keys: bytewise order and injectivity *)

Lemma bytes_le_total a b : bytes_le a b = true ∨ bytes_le b a = true.
Proof.
  revert b. induction a as [|x a IH]; intros [|y b]; simpl; auto.
  destruct (IH b) as [H|H]; rewrite H;
    destruct (Z.ltb_spec x y), (Z.ltb_spec y x), (Z.eqb_spec x y), (Z.eqb_spec y x);
    simpl; auto; lia.
Qed.

Lemma bytes_le_trans a b c :
  bytes_le a b = true → bytes_le b c = true → bytes_le a c = true.
Proof.
  revert b c. induction a as [|x a IH]; intros [|y b] [|z c]; simpl; try done.
  intros H1 H2.
  destruct (Z.ltb_spec x y), (Z.ltb_spec y z), (Z.ltb_spec x z),
    (Z.eqb_spec x y), (Z.eqb_spec y z), (Z.eqb_spec x z);
    simpl in *; try done; try lia; eauto.
Qed.

Lemma bytes_le_antisym a b : bytes_le a b = true → bytes_le b a = true → a = b.
Proof.
  revert b. induction a as [|x a IH]; intros [|y b]; simpl; try done.
  intros H1 H2.
  destruct (Z.ltb_spec x y), (Z.ltb_spec y x), (Z.eqb_spec x y), (Z.eqb_spec y x);
    simpl in *; try done; try lia. f_equal; auto.
Qed.

#[global] Instance bytes_le_Total : Total (key_le bytes_le).
Proof. intros a b. apply bytes_le_total. Qed.

#[global] Instance bytes_le_Transitive : Transitive (key_le bytes_le).
Proof. intros a b c. apply bytes_le_trans. Qed.

#[global] Instance bytes_le_AntiSymm : AntiSymm (=) (key_le bytes_le).
Proof. intros a b. apply bytes_le_antisym. Qed.

Lemma le_bytes32_inj x y :
  F64.INT32_MIN ≤ x ≤ F64.INT32_MAX → F64.INT32_MIN ≤ y ≤ F64.INT32_MAX →
  le_bytes32 x = le_bytes32 y → x = y.
Proof.
  unfold F64.INT32_MIN, F64.INT32_MAX, le_bytes32. intros Hx Hy [= H0 H1 H2 H3].
  assert (∀ u, 0 ≤ u < 2 ^ 32 →
    u = u mod 256 + 2 ^ 8 * ((u / 2 ^ 8) mod 256)
        + 2 ^ 16 * ((u / 2 ^ 16) mod 256) + 2 ^ 24 * ((u / 2 ^ 24) mod 256)) as Hsplit.
  { intros u Hu. change (2 ^ 32) with 4294967296 in Hu.
    change (2 ^ 8) with 256. change (2 ^ 16) with 65536. change (2 ^ 24) with 16777216.
    Z.div_mod_to_equations. lia. }
  assert (x mod 2 ^ 32 = y mod 2 ^ 32) as Hmod.
  { rewrite (Hsplit (x mod 2 ^ 32)) by (apply Z.mod_pos_bound; lia).
    rewrite (Hsplit (y mod 2 ^ 32)) by (apply Z.mod_pos_bound; lia).
    by rewrite H0, H1, H2, H3. }
  change (2 ^ 32) with 4294967296 in Hmod.
  Z.div_mod_to_equations. lia.
Qed.

Lemma le_bytes32_length x : length (le_bytes32 x) = 4%nat.
Proof. done. Qed.

(** Equality of the packed twelve bytes is equality of the three int32. *)
Lemma pack_inj c1 c2 : in_int32 c1 → in_int32 c2 → pack c1 = pack c2 → c1 = c2.
Proof.
  destruct c1 as [[x1 y1] z1], c2 as [[x2 y2] z2]. unfold pack, in_int32.
  intros (Hx1 & Hy1 & Hz1) (Hx2 & Hy2 & Hz2) H.
  apply app_inj_1 in H as [Hx H]; [|done].
  apply app_inj_1 in H as [Hy Hz]; [|done].
  f_equal; [f_equal|]; by apply le_bytes32_inj.
Qed.

Lemma astype_int32_range x : F64.INT32_MIN ≤ F64.astype_int32 x ≤ F64.INT32_MAX.
Proof.
  unfold F64.astype_int32. destruct (Prim2SF x); try done.
  case_bool_decide; done.
Qed.

Lemma color_bin_in_int32 uc q c : in_int32 (color_bin uc q c).
Proof.
  unfold color_bin, quantize. destruct (colors_to_bin uc c) as [[x y] z].
  repeat split; apply astype_int32_range.
Qed.

(** ** The shuffle is a permutation *)

Lemma swap_perm x i j : swap x i j ≡ₚ x.
Proof.
  unfold swap.
  destruct (x !! i) as [a|] eqn:Ha; [|done].
  destruct (x !! j) as [b|] eqn:Hb; [|done].
  apply Permutation_inj. split; [by rewrite !length_insert|].
  exists (λ k, if decide (k = i) then j else if decide (k = j) then i else k).
  split.
  - intros k1 k2. repeat case_decide; congruence.
  - intros k. pose proof (lookup_lt_Some _ _ _ Ha). pose proof (lookup_lt_Some _ _ _ Hb).
    destruct (decide (k = i)) as [->|Hki].
    + rewrite list_lookup_insert_eq by (by rewrite length_insert). done.
    + rewrite list_lookup_insert_ne by done.
      destruct (decide (k = j)) as [->|Hkj].
      * by rewrite list_lookup_insert_eq.
      * by rewrite list_lookup_insert_ne.
Qed.

Lemma shuffle_from_perm `{RS : RandomState} i x s : (shuffle_from i x s).1 ≡ₚ x.
Proof.
  revert x s. induction i as [|i IH]; intros x s; simpl; [done|].
  destruct (random_interval s (S i)) as [j s']. rewrite IH. apply swap_perm.
Qed.

Lemma shuffle_perm `{RS : RandomState} x s : (shuffle x s).1 ≡ₚ x.
Proof. apply shuffle_from_perm. Qed.

(** ** Gathering along a permutation *)

Lemma take_perm {A} (a : list A) idx idx' b :
  idx ≡ₚ idx' → Np.take a idx = Some b →
  ∃ b', Np.take a idx' = Some b' ∧ b ≡ₚ b'.
Proof.
  intros Hp. revert b.
  induction Hp as [|i idx idx' _ IH|i j idx|idx1 idx2 idx3 _ IH1 _ IH2]; intros b.
  - intros [= <-]. by exists [].
  - intros Hb%take_Some. apply Forall2_cons_inv_l in Hb as (x & b0 & Hx & Hb0 & ->).
    apply take_Some in Hb0. destruct (IH _ Hb0) as (b' & Hb' & Hperm).
    exists (x :: b'). split; [|by constructor].
    apply take_Some. constructor; [done|]. by apply take_Some.
  - intros Hb%take_Some.
    apply Forall2_cons_inv_l in Hb as (x & b0 & Hx & Hb0 & ->).
    apply Forall2_cons_inv_l in Hb0 as (y & b1 & Hy & Hb1 & ->).
    exists (y :: x :: b1). split; [|apply Permutation_swap].
    apply take_Some. by repeat constructor.
  - intros Hb. destruct (IH1 _ Hb) as (b1 & Hb1 & Hp1).
    destruct (IH2 _ Hb1) as (b2 & Hb2 & Hp2).
    exists b2. split; [done|]. by etrans.
Qed.

Lemma take_perm_arange {A} (a b : list A) idx :
  idx ≡ₚ Np.arange (length a) → Np.take a idx = Some b → b ≡ₚ a.
Proof.
  intros Hp Hb. destruct (take_perm _ _ _ _ Hp Hb) as (b' & Hb' & Hperm).
  rewrite take_arange in Hb'. by simplify_eq.
Qed.

Lemma arange_in_range n idx :
  idx ≡ₚ Np.arange n → Forall (λ i, i < n)%nat idx.
Proof.
  intros Hp. apply Forall_forall. intros i Hi. rewrite Hp in Hi.
  apply elem_of_seq in Hi. lia.
Qed.

Lemma occ_perm {K} `{EqDecision K} (κ : K) l1 l2 : l1 ≡ₚ l2 → occ κ l1 = occ κ l2.
Proof. intros Hp. unfold occ. by rewrite Hp. Qed.

Lemma occ_fmap_inj {A K} `{EqDecision A, EqDecision K} (f : A → K) (P : A → Prop) κ l :
  P κ → Forall P l → (∀ x y, P x → P y → f x = f y → x = y) →
  occ (f κ) (f <$> l) = occ κ l.
Proof.
  intros Hκ Hl Hinj. unfold occ. induction Hl as [|x l Hx _ IH]; [done|].
  csimpl. rewrite !filter_cons.
  destruct (decide (x = κ)) as [->|Hne].
  - rewrite decide_True by done. simpl. by rewrite IH.
  - rewrite decide_False; [done|]. intros Heq. apply Hne. by apply Hinj.
Qed.

Lemma occ_pos_elem {K} `{EqDecision K} (κ : K) l : (0 < occ κ l)%nat ↔ κ ∈ l.
Proof.
  unfold occ. split.
  - intros Hpos. destruct (filter _ l) as [|y l'] eqn:Hf; [simpl in Hpos; lia|].
    assert (y ∈ filter (λ y, y = κ) l) as Hy by (rewrite Hf; left).
    apply list_elem_of_filter in Hy as [-> ?]. done.
  - intros Hin. assert (κ ∈ filter (λ y, y = κ) l) as Hy by by apply list_elem_of_filter.
    destruct (filter _ l); [by apply elem_of_nil in Hy|]. simpl. lia.
Qed.

Lemma occ_filter_le {K} `{EqDecision K} (P : K → Prop) `{!∀ x, Decision (P x)} κ l :
  (occ κ (filter P l) ≤ occ κ l)%nat.
Proof.
  unfold occ. induction l as [|y l IH]; [done|].
  rewrite !filter_cons. destruct (decide (P y)), (decide (y = κ)); simpl;
    rewrite ?filter_cons; try (rewrite decide_True by done);
    try (rewrite decide_False by done); simpl; lia.
Qed.

(** A list in which no key occurs more than [k] times is at most [k]
    times as long as any duplicate-free list of its keys. *)
Lemma length_le_distinct {K} `{EqDecision K} (l D : list K) (k : nat) :
  NoDup D → (∀ x, x ∈ l → x ∈ D) → (∀ x, occ x l ≤ k)%nat →
  (length l ≤ length D * k)%nat.
Proof.
  intros HD. revert l. induction HD as [|d D Hd _ IH]; intros l Hsub Hocc.
  - destruct l as [|x l]; [simpl; lia|]. exfalso. eapply elem_of_nil, Hsub. left.
  - pose proof (Permutation_length (filter_app_complement (λ y, y = d) l)) as Hsplit.
    rewrite length_app in Hsplit.
    assert (length (filter (λ y, y ≠ d) l) ≤ length D * k)%nat as Hrest.
    { apply IH.
      - intros x [Hne Hx]%list_elem_of_filter.
        specialize (Hsub x Hx). apply elem_of_cons in Hsub as [?|?]; done.
      - intros x. etrans; [apply occ_filter_le|apply Hocc]. }
    specialize (Hocc d). unfold occ in Hocc. simpl. lia.
Qed.

(** ** The index selection *)

Section SamplerFacts.
Context `{RS : RandomState} `{AS : !ArgSort bytes_le}.

Lemma stratified_mask_sorted sc k :
  Sorted (key_le bytes_le) sc →
  stratified_mask sc k = Return (less_scalar (run_counter sc) k).
Proof.
  intros Hs. pose proof (sorted_grouped bytes_le sc Hs) as Hg.
  unfold stratified_mask. rewrite group_starts_sorted by done.
  unfold subtract. rewrite decide_True; [done|].
  rewrite group_starts_length by done. unfold Np.arange. by rewrite length_seq.
Qed.

(** Shuffling and sorting: when every point has a key, the three
    gathers of step 3 succeed, the sorted order read through the shuffle
    is a permutation [o] of the point indices, and the keys along [o]
    are in order. *)
Lemma shuffle_sort_spec colors_packed N s :
  (N ≤ length colors_packed)%nat →
  ∃ cps sc o,
    Np.take colors_packed (shuffle (Np.arange N) s).1 = Some cps
    ∧ Np.take cps (argsort cps) = Some sc
    ∧ Np.take (shuffle (Np.arange N) s).1 (argsort cps) = Some o
    ∧ length sc = length (argsort cps)
    ∧ o ≡ₚ Np.arange N
    ∧ Np.take colors_packed o = Some sc
    ∧ Sorted (key_le bytes_le) sc.
Proof.
  intros HN.
  pose proof (shuffle_perm (Np.arange N) s) as Hsh.
  destruct (shuffle (Np.arange N) s) as [sh s']. simpl in *.
  assert (length sh = N) as Hshlen.
  { rewrite Hsh. unfold Np.arange. by rewrite length_seq. }
  destruct (take_in_range colors_packed sh) as [cps Hcps].
  { eapply Forall_impl; [by apply arange_in_range|]. simpl. intros; lia. }
  pose proof (take_length _ _ _ Hcps) as Hcpslen.
  pose proof (argsort_perm bytes_le cps) as Hso.
  destruct (take_in_range cps (argsort cps)) as [sc Hsc].
  { by apply arange_in_range. }
  destruct (take_in_range sh (argsort cps)) as [o Ho].
  { apply arange_in_range. by rewrite Hso, Hcpslen. }
  exists cps, sc, o. repeat split; try done.
  - by eapply take_length.
  - rewrite <-Hsh. eapply take_perm_arange; [|done]. by rewrite Hso, Hcpslen.
  - by rewrite <-(take_compose _ _ _ _ _ Hcps Ho).
  - by eapply (argsort_sorted bytes_le).
Qed.

(** What [select_indices] computes when every point has a key: a
    permutation [o] of the point indices that puts the keys in order,
    masked by the counters of the sorted keys. *)
Lemma select_indices_spec colors_packed N k s :
  (N ≤ length colors_packed)%nat →
  ∃ o sc,
    select_indices colors_packed N k s
    = (Return (Np.compress (less_scalar (run_counter sc) k) o),
       (shuffle (Np.arange N) s).2)
    ∧ o ≡ₚ Np.arange N
    ∧ Np.take colors_packed o = Some sc
    ∧ Sorted (key_le bytes_le) sc.
Proof.
  intros HN. unfold select_indices.
  destruct (shuffle_sort_spec colors_packed N s HN)
    as (cps & sc & o & Hcps & Hsc & Ho & Hlen & Hperm & Hkeys & Hsorted).
  destruct (shuffle (Np.arange N) s) as [sh s']. simpl in *.
  rewrite Hcps. simpl. rewrite Hsc. simpl.
  rewrite stratified_mask_sorted by done. simpl.
  unfold Np.mask_index. rewrite decide_True; last first.
  { unfold less_scalar. rewrite length_fmap, run_counter_length; [done|].
    exact (sorted_grouped bytes_le sc Hsorted). }
  simpl. rewrite (take_compress _ _ _ _ Ho). simpl.
  by exists o, sc.
Qed.


(** Without a key for every point the very first gather fails. *)
Lemma select_indices_short colors_packed N k s :
  (length colors_packed < N)%nat →
  (select_indices colors_packed N k s).1 = Raise IndexError.
Proof.
  intros HN. unfold select_indices.
  pose proof (shuffle_perm (Np.arange N) s) as Hsh.
  destruct (shuffle (Np.arange N) s) as [sh s']. simpl in *.
  destruct (Np.take colors_packed sh) as [cps|] eqn:Hcps; [|done].
  apply take_Some_range in Hcps. rewrite Forall_forall in Hcps.
  specialize (Hcps (length colors_packed)).
  assert (length colors_packed ∈ sh) as Hin.
  { rewrite Hsh. apply elem_of_seq. lia. }
  specialize (Hcps Hin). lia.
Qed.

Lemma gather_cloud_Return c final out :
  gather_cloud c final = Return out ↔
    Np.take (points c) final = Some (points out)
    ∧ Np.take (colors c) final = Some (colors out)
    ∧ if has_normals c then Np.take (normals c) final = Some (normals out)
      else normals out = [].
Proof.
  unfold gather_cloud.
  destruct (Np.take (points c) final) as [ps|]; simpl;
    [|split; [done|by intros [? _]]].
  destruct (Np.take (colors c) final) as [cs|]; simpl;
    [|split; [done|by intros (_ & ? & _)]].
  destruct (has_normals c).
  - destruct (Np.take (normals c) final) as [ns|]; simpl;
      [|split; [done|by intros (_ & _ & ?)]].
    destruct out; simpl. split.
    + by intros [= -> -> ->].
    + by intros ([= ->] & [= ->] & [= ->]).
  - destruct out; simpl. split.
    + by intros [= -> -> <-].
    + by intros ([= ->] & [= ->] & ->).
Qed.

Lemma gather_cloud_in_range c final :
  Forall (λ i, i < length (points c))%nat final →
  (length (points c) ≤ length (colors c))%nat →
  ∃ out, gather_cloud c final = Return out.
Proof.
  intros Hr Hc.
  destruct (take_in_range (points c) final Hr) as [ps Hps].
  destruct (take_in_range (colors c) final) as [cs Hcs].
  { eapply Forall_impl; [done|]. simpl. intros; lia. }
  destruct (has_normals c) eqn:Hn.
  - destruct (take_in_range (normals c) final) as [ns Hns].
    { unfold has_normals in Hn. apply bool_decide_eq_true in Hn as [_ ->]. done. }
    exists {| points := ps; colors := cs; normals := ns |}.
    apply gather_cloud_Return. by rewrite Hn.
  - exists {| points := ps; colors := cs; normals := [] |}.
    apply gather_cloud_Return. by rewrite Hn.
Qed.

(** Once the indices are selected, the gathers succeed. *)
Lemma gather_after_select c k q uc s final s' :
  select_indices (pack <$> (color_bin uc q <$> colors c)) (length (points c)) k s
  = (Return final, s') →
  ∃ out, gather_cloud c final = Return out.
Proof.
  intros Hsel.
  destruct (decide (length (points c) ≤ length (colors c))%nat) as [Hle|Hgt].
  - destruct (select_indices_spec (pack <$> (color_bin uc q <$> colors c))
                (length (points c)) k s) as (o & sc & Hspec & Ho & _).
    { by rewrite !length_fmap. }
    rewrite Hspec in Hsel. injection Hsel as <- _.
    apply gather_cloud_in_range; [|done].
    apply Forall_forall. intros i Hi.
    eapply elem_of_sublist in Hi; [|apply compress_sublist].
    pose proof (arange_in_range _ _ Ho) as Hr. rewrite Forall_forall in Hr. auto.
  - pose proof (select_indices_short (pack <$> (color_bin uc q <$> colors c))
                  (length (points c)) k s) as Hshort.
    rewrite !length_fmap in Hshort. rewrite Hsel in Hshort. simpl in Hshort.
    discriminate Hshort. lia.
Qed.

(** Every reference returned for a cloud with points is a fresh location
    that holds the gather of the input at one list of indices. *)
Lemma prism_sampling_Return pcd k q uc h s c l h' s' :
  h !! pcd = Some c → points c ≠ [] →
  prism_sampling pcd k q uc h s = (Return l, h', s') →
  ∃ final out,
    (select_indices (pack <$> (color_bin uc q <$> colors c)) (length (points c)) k s).1
      = Return final
    ∧ gather_cloud c final = Return out
    ∧ l = fresh (dom h) ∧ h' = <[l := out]> h.
Proof.
  intros Hc Hne. unfold prism_sampling. rewrite Hc.
  rewrite decide_False by (by destruct (points c)).
  destruct (select_indices _ _ k s) as [[final|e] s1]; [|done].
  destruct (gather_cloud c final) as [out|e] eqn:Hout; [|done].
  intros [= <- <- <-]. by exists final, out.
Qed.

Lemma has_colors_length c :
  has_colors c = true → points c ≠ [] ∧ length (colors c) = length (points c).
Proof.
  unfold has_colors. intros [Hpos Hlen]%bool_decide_eq_true. split; [|done].
  destruct (points c); [simpl in Hpos; lia|done].
Qed.

(** On a cloud with points and a colour for each of them the sampler
    returns a new cloud: the gather of the input along the masked sorted
    order. *)
Lemma prism_sampling_total pcd k q uc h s c :
  h !! pcd = Some c → points c ≠ [] →
  (length (points c) ≤ length (colors c))%nat →
  ∃ o sc out,
    prism_sampling pcd k q uc h s
    = (Return (fresh (dom h)), <[fresh (dom h) := out]> h,
       (shuffle (Np.arange (length (points c))) s).2)
    ∧ o ≡ₚ Np.arange (length (points c))
    ∧ Np.take (pack <$> (color_bin uc q <$> colors c)) o = Some sc
    ∧ Sorted (key_le bytes_le) sc
    ∧ gather_cloud c (Np.compress (less_scalar (run_counter sc) k) o) = Return out.
Proof.
  intros Hc Hne Hlen.
  destruct (select_indices_spec (pack <$> (color_bin uc q <$> colors c))
              (length (points c)) k s) as (o & sc & Hsel & Ho & Hsc & Hsorted).
  { by rewrite !length_fmap. }
  destruct (gather_cloud_in_range c (Np.compress (less_scalar (run_counter sc) k) o))
    as [out Hout]; [|done|].
  { apply Forall_forall. intros i Hi.
    eapply elem_of_sublist in Hi; [|apply compress_sublist].
    pose proof (arange_in_range _ _ Ho) as Hr. rewrite Forall_forall in Hr. auto. }
  exists o, sc, out. split; [|done].
  unfold prism_sampling. rewrite Hc.
  rewrite decide_False by (by destruct (points c)).
  rewrite Hsel. simpl. by rewrite Hout.
Qed.

Lemma prism_sampling_colored pcd k q uc h s c :
  h !! pcd = Some c → has_colors c = true →
  ∃ o sc out,
    prism_sampling pcd k q uc h s
    = (Return (fresh (dom h)), <[fresh (dom h) := out]> h,
       (shuffle (Np.arange (length (points c))) s).2)
    ∧ o ≡ₚ Np.arange (length (points c))
    ∧ Np.take (pack <$> (color_bin uc q <$> colors c)) o = Some sc
    ∧ Sorted (key_le bytes_le) sc
    ∧ gather_cloud c (Np.compress (less_scalar (run_counter sc) k) o) = Return out.
Proof.
  intros Hc [Hne Hlen]%has_colors_length.
  apply prism_sampling_total; [done|done|lia].
Qed.

(** With fewer colours than points the sampler raises IndexError and
    leaves the heap as it was. *)
Lemma prism_sampling_short pcd k q uc h s c :
  h !! pcd = Some c → (length (colors c) < length (points c))%nat →
  ∃ s', prism_sampling pcd k q uc h s = (Raise IndexError, h, s').
Proof.
  intros Hc Hlt. unfold prism_sampling. rewrite Hc.
  rewrite decide_False by lia.
  pose proof (select_indices_short (pack <$> (color_bin uc q <$> colors c))
                (length (points c)) k s) as Hsel.
  rewrite !length_fmap in Hsel. specialize (Hsel Hlt).
  destruct (select_indices _ _ k s) as [r s1]. simpl in Hsel. subst r.
  by exists s1.
Qed.

Lemma take_elem_of {A} (a b : list A) idx x :
  Np.take a idx = Some b → x ∈ b → x ∈ a.
Proof.
  intros Hb%take_Some Hx. apply list_elem_of_lookup in Hx as [p Hp].
  destruct (Forall2_lookup_r _ _ _ _ _ Hb Hp) as (i & _ & Hi).
  by eapply list_elem_of_lookup_2.
Qed.

(** Every bin keeps [min k size] of its colours. *)
Lemma sampled_bin_count uc q (k : Z) (cs cs' : list vec3) o sc κ :
  o ≡ₚ Np.arange (length cs) →
  Np.take (pack <$> (color_bin uc q <$> cs)) o = Some sc →
  Sorted (key_le bytes_le) sc →
  Np.take cs (Np.compress (less_scalar (run_counter sc) k) o) = Some cs' →
  bin_count uc q κ cs' = (Z.to_nat k `min` bin_count uc q κ cs)%nat.
Proof.
  intros Ho Hsc Hsorted Hcs'. unfold bin_count.
  destruct (decide (κ ∈ color_bin uc q <$> cs)) as [Hin|Hnin].
  - assert (in_int32 κ) as Hκ.
    { apply list_elem_of_fmap in Hin as (x & -> & _). apply color_bin_in_int32. }
    assert (∀ l, Forall in_int32 (color_bin uc q <$> l)) as Hall.
    { intros l. apply Forall_fmap, Forall_true. intros x. simpl. apply color_bin_in_int32. }
    rewrite <-(occ_fmap_inj pack in_int32 κ (color_bin uc q <$> cs'))
      by auto using pack_inj.
    rewrite <-(occ_fmap_inj pack in_int32 κ (color_bin uc q <$> cs))
      by auto using pack_inj.
    apply (take_fmap (color_bin uc q)), (take_fmap pack) in Hcs'.
    rewrite (take_compress _ _ _ _ Hsc) in Hcs'. injection Hcs' as <-.
    rewrite keep_first_k_occ by exact (sorted_grouped bytes_le sc Hsorted).
    f_equal. apply occ_perm. eapply take_perm_arange; [|done].
    by rewrite !length_fmap.
  - rewrite (occ_not_elem κ (color_bin uc q <$> cs)) by done.
    rewrite occ_not_elem; [lia|].
    intros Hin'. apply Hnin.
    apply list_elem_of_fmap in Hin' as (x & -> & Hx).
    apply list_elem_of_fmap. exists x. split; [done|]. by eapply take_elem_of.
Qed.
End SamplerFacts.

(** ** No position is kept when [k] is not positive *)

Lemma run_counter_nonneg {K} `{EqDecision K} (ar : list K) :
  grouped ar → Forall (λ z, 0 ≤ z) (run_counter ar).
Proof.
  intros Hg. apply Forall_lookup. intros p z Hz. unfold run_counter in Hz.
  apply lookup_zip_with_Some in Hz as (i & g & -> & Hi & Hgp).
  unfold Np.arange in Hi. apply lookup_seq in Hi as [-> _].
  destruct (group_starts_first _ _ _ Hg Hgp) as [Hle _]. simpl. lia.
Qed.

Lemma compress_none {A} (a : list A) (counter : list Z) (k : Z) :
  k ≤ 0 → Forall (λ z, 0 ≤ z) counter → Np.compress (less_scalar counter k) a = [].
Proof.
  intros Hk Hc. revert a. unfold less_scalar.
  induction Hc as [|z counter Hz _ IH]; intros [|x a]; csimpl; try done.
  rewrite bool_decide_eq_false_2 by lia. apply IH.
Qed.

Lemma take_nil {A} (a : list A) : Np.take a [] = Some [].
Proof. done. Qed.

(** ** Signs of float64 sums *)

Section FloatSigns.

Lemma iter_pos_invariant {A} (f : A → A) (P : A → Prop) :
  (∀ x, P x → P (f x)) → ∀ n x, P x → P (SpecFloat.iter_pos f n x).
Proof.
  intros Hf. induction n as [n IH|n IH|]; intros x Hx; simpl; auto.
Qed.

Lemma iter_pos_nat {A} (f : A → A) n x :
  SpecFloat.iter_pos f n x = Nat.iter (Pos.to_nat n) f x.
Proof.
  revert x. induction n as [n IH|n IH|]; intros x; cbn [SpecFloat.iter_pos].
  - rewrite !IH, Pos2Nat.inj_xI.
    replace (S (2 * Pos.to_nat n)) with (S (Pos.to_nat n + Pos.to_nat n)) by lia.
    by rewrite Nat.iter_succ_r, Nat.iter_add.
  - rewrite !IH, Pos2Nat.inj_xO.
    replace (2 * Pos.to_nat n)%nat with (Pos.to_nat n + Pos.to_nat n)%nat by lia.
    by rewrite Nat.iter_add.
  - done.
Qed.

Lemma shr_1_nonneg mrs : 0 ≤ shr_m mrs → 0 ≤ shr_m (shr_1 mrs).
Proof. destruct mrs as [[|[p|p|]|p] r s]; simpl; lia. Qed.

(** Shifting right by fewer places than the mantissa has digits leaves
    a positive mantissa. *)
Lemma shr_iter_pos (n : nat) m r s :
  (n < Pos.to_nat (digits2_pos m))%nat →
  ∃ m', shr_m (Nat.iter n shr_1 {| shr_m := Zpos m; shr_r := r; shr_s := s |}) = Zpos m'.
Proof.
  revert m r s. induction n as [|n IH]; intros m r s Hn.
  - by exists m.
  - rewrite Nat.iter_succ_r.
    destruct m as [p|p|]; simpl in *.
    + apply IH. lia.
    + apply IH. lia.
    + lia.
Qed.

Lemma shr_fexp_pos m e l mrs e' :
  emin ≤ e →
  shr_fexp prec emax (Zpos m) e l = (mrs, e') →
  (∃ m', shr_m mrs = Zpos m') ∧ emin ≤ e'.
Proof.
  unfold shr_fexp, shr, fexp, SpecFloat.emin, prec, emax. simpl Zdigits2.
  intros He.
  destruct (Z.max (Zpos (digits2_pos m) + e - 53) (3 - 1024 - 53) - e) as [|n|n] eqn:Hn.
  - intros [= <- <-]. split; [|done]. destruct l as [|[]]; by eexists.
  - intros [= <- <-]. split; [|unfold SpecFloat.emin, prec, emax in *; lia].
    rewrite iter_pos_nat.
    assert (Pos.to_nat n < Pos.to_nat (digits2_pos m))%nat as Hlt.
    { unfold SpecFloat.emin, prec, emax in *. lia. }
    destruct l as [|[]]; simpl; by apply shr_iter_pos.
  - intros [= <- <-]. split; [|done]. destruct l as [|[]]; by eexists.
Qed.

Lemma round_nearest_even_pos m l : ∃ m', round_nearest_even (Zpos m) l = Zpos m'.
Proof.
  destruct l as [|[]]; simpl; try by eexists.
  destruct m; simpl; by eexists.
Qed.

(** Rounding a positive mantissa at an exponent no smaller than [emin]
    gives a positive float or plus infinity. *)
Lemma binary_round_aux_pos m e l :
  emin ≤ e → sf_pos (binary_round_aux prec emax false (Zpos m) e l).
Proof.
  intros He. unfold binary_round_aux.
  destruct (shr_fexp prec emax (Zpos m) e l) as [mrs1 e1] eqn:H1.
  destruct (shr_fexp_pos _ _ _ _ _ He H1) as [[m1 Hm1] He1].
  rewrite Hm1.
  destruct (round_nearest_even_pos m1 (loc_of_shr_record mrs1)) as [m2 ->].
  destruct (shr_fexp prec emax (Zpos m2) e1 loc_Exact) as [mrs2 e2] eqn:H2.
  destruct (shr_fexp_pos _ _ _ _ _ He1 H2) as [[m3 Hm3] He2].
  rewrite Hm3. by destruct (e2 <=? emax - prec).
Qed.

Lemma binary_round_pos m e : emin ≤ e → sf_pos (binary_round prec emax false m e).
Proof.
  intros He. unfold binary_round.
  destruct (shl_align m e (fexp prec emax (Zpos (digits2_pos m) + e))) as [mz ez] eqn:Hal.
  apply binary_round_aux_pos.
  unfold shl_align in Hal.
  destruct (fexp prec emax (Zpos (digits2_pos m) + e) - e) eqn:Hd;
    injection Hal as <- <-; try done.
  unfold fexp. lia.
Qed.

Lemma valid_emin s m e : valid_binary (S754_finite s m e) = true → emin ≤ e.
Proof.
  unfold SpecFloat.valid_binary, bounded, canonical_mantissa.
  intros [Hc _]%andb_prop. apply Z.eqb_eq in Hc. unfold fexp in Hc. lia.
Qed.

(** The sum of two non-negative floats is non-negative, and positive as
    soon as one of them is. *)
Lemma SF64add_nonneg x y :
  valid_binary x = true → valid_binary y = true →
  sf_nonneg x → sf_nonneg y →
  sf_nonneg (SF64add x y) ∧ (sf_pos y → sf_pos (SF64add x y)).
Proof.
  intros Hvx Hvy Hx Hy.
  destruct x as [[]|[]| |[] mx ex], y as [[]|[]| |[] my ey];
    simpl in Hx, Hy; try done; try (by split).
  apply valid_emin in Hvx, Hvy.
  pose proof (binary_round_pos
    (fst (shl_align mx ex (Z.min ex ey)) + fst (shl_align my ey (Z.min ex ey)))
    (Z.min ex ey)) as Hpos.
  assert (emin ≤ Z.min ex ey) as He by lia. specialize (Hpos He).
  unfold SF64add, SFadd. cbn [cond_Zopp]. rewrite <-Pos2Z.inj_add.
  cbn [binary_normalize].
  destruct (binary_round _ _ _ _ _) as [[]|[]| |[] ? ?]; simpl in *; done.
Qed.

Lemma shr_fexp_nonneg m e l mrs e' :
  0 ≤ m → shr_fexp prec emax m e l = (mrs, e') → 0 ≤ shr_m mrs.
Proof.
  unfold shr_fexp, shr. intros Hm.
  assert (0 ≤ shr_m (shr_record_of_loc m l)) as H0 by (by destruct l as [|[]]).
  destruct (fexp prec emax (Zdigits2 m + e) - e); intros [= <- <-]; try done.
  by apply (iter_pos_invariant shr_1 (λ r, 0 ≤ shr_m r) shr_1_nonneg).
Qed.

Lemma round_nearest_even_nonneg m l : 0 ≤ m → 0 ≤ round_nearest_even m l.
Proof.
  intros Hm. destruct l as [|[]]; simpl; try lia. destruct (Z.even m); lia.
Qed.

(** Rounding a mantissa that is not negative never gives NaN or a
    negative float. *)
Lemma binary_round_aux_nonneg m e l :
  0 ≤ m → sf_nonneg (binary_round_aux prec emax false m e l).
Proof.
  intros Hm. unfold binary_round_aux.
  destruct (shr_fexp prec emax m e l) as [mrs1 e1] eqn:H1.
  pose proof (shr_fexp_nonneg _ _ _ _ _ Hm H1) as Hm1.
  pose proof (round_nearest_even_nonneg _ (loc_of_shr_record mrs1) Hm1) as Hm2.
  destruct (shr_fexp prec emax _ e1 loc_Exact) as [mrs2 e2] eqn:H2.
  pose proof (shr_fexp_nonneg _ _ _ _ _ Hm2 H2) as Hm3.
  destruct (shr_m mrs2); [done| |lia]. by destruct (e2 <=? emax - prec).
Qed.

Lemma SF64div_nonneg x y :
  sf_nonneg x → x ≠ S754_infinity false → sf_pos y → sf_nonneg (SF64div x y).
Proof.
  intros Hx Hinf Hy.
  destruct x as [[]|[]| |[] mx ex], y as [[]|[]| |[] my ey];
    simpl in Hx, Hy; try done.
  unfold SF64div, SFdiv, SFdiv_core_binary.
  destruct (Z.div_eucl _ (Zpos my)) as [qz rz] eqn:Hdiv.
  apply binary_round_aux_nonneg.
  match type of Hdiv with Z.div_eucl ?a _ = _ =>
    assert (0 ≤ a) as Ha;
    [|pose proof (Z_div_mod a (Zpos my) eq_refl) as Hspec] end.
  { destruct (_ - _ - _); try done. apply Z.shiftl_nonneg. lia. }
  rewrite Hdiv in Hspec. nia.
Qed.

Lemma SF64mul_nonneg x y : sf_nonneg x → sf_pos y → y ≠ S754_infinity false →
  sf_nonneg (SF64mul x y).
Proof.
  intros Hx Hy Hinf.
  destruct x as [[]|[]| |[] mx ex], y as [[]|[]| |[] my ey];
    simpl in Hx, Hy; try done.
  unfold SF64mul, SFmul. by apply binary_round_aux_nonneg.
Qed.
End FloatSigns.

Lemma leb_zero_nonneg (x : float) : (0 <=? x)%float = true ↔ sf_nonneg (Prim2SF x).
Proof.
  rewrite leb_spec. replace (Prim2SF 0) with (S754_zero false) by (by vm_compute).
  by destruct (Prim2SF x) as [[]|[]| |[] m e].
Qed.

Lemma ltb_zero_pos (x : float) : (0 <? x)%float = true ↔ sf_pos (Prim2SF x).
Proof.
  rewrite ltb_spec. replace (Prim2SF 0) with (S754_zero false) by (by vm_compute).
  by destruct (Prim2SF x) as [[]|[]| |[] m e].
Qed.

Lemma leb_one_finite (x : float) :
  (x <=? 1)%float = true → Prim2SF x ≠ S754_infinity false.
Proof.
  rewrite leb_spec. intros Hle Hinf. rewrite Hinf in Hle. by vm_compute in Hle.
Qed.

Lemma add_nonneg (x y : float) :
  sf_nonneg (Prim2SF x) → sf_nonneg (Prim2SF y) → sf_nonneg (Prim2SF (x + y)).
Proof.
  intros Hx Hy. rewrite add_spec.
  by apply SF64add_nonneg; auto using Prim2SF_valid.
Qed.

Lemma add_pos (x y : float) :
  sf_nonneg (Prim2SF x) → sf_pos (Prim2SF y) → sf_pos (Prim2SF (x + y)).
Proof.
  intros Hx Hy. rewrite add_spec.
  apply SF64add_nonneg; auto using Prim2SF_valid.
  by destruct (Prim2SF y) as [[]|[]| |[] m e].
Qed.

(** One component of the chromaticity transform: a colour component in
    [0, 1] over a positive denominator, times 255, is a float that is
    neither NaN nor negative. *)
Lemma chroma_component_nonneg (c s : float) :
  (0 <=? c)%float = true → (c <=? 1)%float = true → sf_pos (Prim2SF s) →
  (0 <=? c / s * 255)%float = true.
Proof.
  intros Hc%leb_zero_nonneg Hc1%leb_one_finite Hs.
  apply leb_zero_nonneg. rewrite mul_spec, div_spec.
  apply SF64mul_nonneg; [by apply SF64div_nonneg|by vm_compute|by vm_compute].
Qed.

(** ** Groups and keys *)

Section Grouping.
Context `{RS : RandomState} `{AS : !ArgSort bytes_le}.


End Grouping.

(** ** A sort and a generator to run the sampler with *)

(** A stable sort meets the contract of [np.argsort]. *)
#[global] Instance StableArgSort : ArgSort bytes_le := {|
  argsort := stable_argsort bytes_le;
  argsort_perm := stable_argsort_perm bytes_le;
  argsort_sorted := stable_argsort_sorted bytes_le
|}.

Lemma tape_interval_le (s : list nat) (max : nat) : ((tape_interval s max).1 ≤ max)%nat.
Proof. simpl. pose proof (Nat.mod_upper_bound (hd 0%nat s) (S max)). lia. Qed.

(** The generator that replays a tape. *)
Definition TapeRandom : RandomState := {|
  rng_state := list nat;
  random_interval := tape_interval;
  random_interval_le := tape_interval_le
|}.

(** The state of a run that starts in [scans]. *)
Definition start_state : state (RS:=TapeRandom) (HO:=DiskHost) :=
  @Build_state TapeRandom DiskHost ∅ [3; 1; 4; 1; 5]%nat scans [].


(** ** The specification's first example *)

Lemma filter_ext_elem {A} (P1 P2 : A → Prop)
    `{!∀ x, Decision (P1 x), !∀ x, Decision (P2 x)} (l : list A) :
  (∀ x, x ∈ l → P1 x ↔ P2 x) → filter P1 l = filter P2 l.
Proof.
  induction l as [|a l IH]; intros Hiff; [done|].
  rewrite !filter_cons, IH by (intros x Hx; apply Hiff; by right).
  destruct (decide (P1 a)) as [H1|H1], (decide (P2 a)) as [H2|H2]; try done.
  - destruct H2. apply Hiff; [left|done].
  - destruct H1. apply Hiff; [left|done].
Qed.

(** The first example of the specification, for every generator, sort and
    random state: of three red and three green points, [k = 1] at step 1
    in chromaticity mode keeps two, one of each colour. *)
Lemma six_points_keep_two `{RS : RandomState} `{AS : !ArgSort bytes_le}
    (h : heap) (pcd : loc) (s : rng_state) :
  h !! pcd = Some six_points →
  ∃ l out s',
    prism_sampling pcd 1 1%float true h s = (Return l, <[l := out]> h, s')
    ∧ length (points out) = 2%nat
    ∧ bin_count true 1%float (color_bin true 1%float red) (colors out) = 1%nat
    ∧ bin_count true 1%float (color_bin true 1%float green) (colors out) = 1%nat.
Proof.
  intros Hc.
  destruct (prism_sampling_colored pcd 1 1%float true h s six_points Hc eq_refl)
    as (o & sc & out & Hrun & Ho & Hsc & Hsorted & Hout).
  apply gather_cloud_Return in Hout as (Hps & Hcs & _).
  pose proof (λ κ, sampled_bin_count true 1%float 1 (colors six_points) (colors out)
                     o sc κ Ho Hsc Hsorted Hcs) as Hcount.
  set (rb := color_bin true 1%float red) in *.
  set (gb := color_bin true 1%float green) in *.
  assert (bin_count true 1%float rb (colors out) = 1%nat) as Hr
    by (rewrite Hcount; by vm_compute).
  assert (bin_count true 1%float gb (colors out) = 1%nat) as Hg
    by (rewrite Hcount; by vm_compute).
  eexists _, out, _. split; [done|]. split; [|done].
  rewrite (take_length _ _ _ Hps), <-(take_length _ _ _ Hcs).
  rewrite <-(length_fmap (color_bin true 1%float)).
  unfold bin_count, occ in Hr, Hg.
  rewrite <-(Permutation_length
               (filter_app_complement (λ y, y = rb) (color_bin true 1%float <$> colors out))).
  rewrite length_app, Hr. f_equal. rewrite <-Hg. f_equal.
  apply filter_ext_elem. intros κ Hκ. split.
  - intros Hne.
    assert (0 < bin_count true 1%float κ (colors six_points))%nat as Hpos.
    { apply occ_pos_elem in Hκ. specialize (Hcount κ). unfold bin_count, occ in *. lia. }
    apply occ_pos_elem in Hpos. vm_compute in Hpos.
    repeat (apply elem_of_cons in Hpos as [Hpos|Hpos]; [try done|]).
    by apply elem_of_nil in Hpos.
  - intros ->. by vm_compute.
Qed.

(** * The claims *)

(** C1 (bin cap): on a cloud whose colours are aligned with its non-empty
    points and for every [k >= 1] and every random state, the sampler
    returns a new cloud in which every quantized colour bin holds exactly
    [min k size] colours, [size] being what the bin holds in the input;
    hence no more than [k] from any bin, all of a bin smaller than [k],
    at most as many points as the input and at most [k] per distinct
    bin. *)
Theorem bin_cap `{RS : RandomState} `{AS : !ArgSort bytes_le}
    (pcd : loc) (k : Z) (q : float) (uc : bool) (h : heap) (s : rng_state)
    (c : PointCloud) :
  h !! pcd = Some c → has_colors c = true → 1 ≤ k →
  ∃ l out s',
    prism_sampling pcd k q uc h s = (Return l, <[l := out]> h, s')
    ∧ length (colors out) = length (points out)
    ∧ (∀ κ, bin_count uc q κ (colors out)
            = (Z.to_nat k `min` bin_count uc q κ (colors c))%nat)
    ∧ (length (points out) ≤ length (points c))%nat
    ∧ Z.of_nat (length (points out)) ≤ Z.of_nat (distinct_bins uc q (colors c)) * k.
Proof.
  intros Hc Hcol Hk.
  destruct (prism_sampling_colored pcd k q uc h s c Hc Hcol)
    as (o & sc & out & Hrun & Ho & Hsc & Hsorted & Hout).
  apply has_colors_length in Hcol as [Hne Hlen].
  apply gather_cloud_Return in Hout as (Hps & Hcs & _).
  assert (∀ κ, bin_count uc q κ (colors out)
               = (Z.to_nat k `min` bin_count uc q κ (colors c))%nat) as Hcount.
  { intros κ. eapply sampled_bin_count; [|done|done|done]. by rewrite Hlen. }
  assert (length (colors out) = length (points out)) as Hal.
  { by rewrite (take_length _ _ _ Hps), (take_length _ _ _ Hcs). }
  eexists _, out, _. split; [done|]. split; [done|]. split; [done|]. split.
  - rewrite (take_length _ _ _ Hps).
    etrans; [apply sublist_length, compress_sublist|].
    rewrite Ho. unfold Np.arange. by rewrite length_seq.
  - rewrite <-Hal, <-(length_fmap (color_bin uc q) (colors out)).
    assert (length (color_bin uc q <$> colors out)
            ≤ length (remove_dups (color_bin uc q <$> colors c)) * Z.to_nat k)%nat as Hle.
    { apply length_le_distinct.
      - apply NoDup_remove_dups.
      - intros κ Hκ. apply elem_of_remove_dups.
        apply occ_pos_elem in Hκ. apply occ_pos_elem.
        specialize (Hcount κ). unfold bin_count in Hcount. lia.
      - intros κ. specialize (Hcount κ). unfold bin_count in Hcount. lia. }
    unfold distinct_bins. nia.
Qed.

Lemma bin_cap_witness :
  ∃ l out s',
    prism_sampling (RS:=TapeRandom) 1%positive 1 1%float true (one_cloud six_points)
      [3; 1; 4; 1; 5]%nat
    = (Return l, <[l := out]> (one_cloud six_points), s')
    ∧ length (colors out) = length (points out)
    ∧ (∀ κ, bin_count true 1%float κ (colors out)
            = (Z.to_nat 1 `min` bin_count true 1%float κ (colors six_points))%nat)
    ∧ (length (points out) ≤ length (points six_points))%nat
    ∧ Z.of_nat (length (points out))
      ≤ Z.of_nat (distinct_bins true 1%float (colors six_points)) * 1.
Proof.
  apply (bin_cap (RS:=TapeRandom) 1%positive 1 1%float true (one_cloud six_points)
           [3; 1; 4; 1; 5]%nat six_points).
  - reflexivity.
  - reflexivity.
  - lia.
Defined.

(** C2 (subset): whenever the sampler returns a cloud, every point of it
    sits, with its colour and (when the input has normals) its normal, at
    one index [j] of the input: position, colour and normal are the
    input's values at [j], nothing is computed anew.  For an input with
    points, the output's colours (and normals, when present) are as many
    as its points. *)
Theorem subset_property `{RS : RandomState} `{AS : !ArgSort bytes_le}
    (pcd : loc) (k : Z) (q : float) (uc : bool) (h : heap) (s : rng_state)
    (c : PointCloud) (l : loc) (h' : heap) (s' : rng_state) :
  h !! pcd = Some c →
  prism_sampling pcd k q uc h s = (Return l, h', s') →
  ∃ out,
    h' !! l = Some out
    ∧ (∀ p pt, points out !! p = Some pt →
        ∃ j col,
          points c !! j = Some pt
          ∧ colors c !! j = Some col ∧ colors out !! p = Some col
          ∧ (has_normals c = true →
             ∃ n, normals c !! j = Some n ∧ normals out !! p = Some n))
    ∧ (points c ≠ [] →
        length (colors out) = length (points out)
        ∧ if has_normals c then length (normals out) = length (points out)
          else normals out = []).
Proof.
  intros Hc Hrun. destruct (decide (points c = [])) as [Hemp|Hne].
  - unfold prism_sampling in Hrun. rewrite Hc, Hemp in Hrun. simpl in Hrun.
    injection Hrun as <- <- <-. exists c. split; [done|]. split; [|done].
    intros p pt. by rewrite Hemp.
  - destruct (prism_sampling_Return _ _ _ _ _ _ _ _ _ _ Hc Hne Hrun)
      as (final & out & _ & Hout & -> & ->).
    exists out. split; [apply lookup_insert_eq|].
    apply gather_cloud_Return in Hout as (Hps & Hcs & Hns). split.
    + intros p pt Hp.
      pose proof (lookup_lt_Some _ _ _ Hp) as Hlt.
      rewrite (take_length _ _ _ Hps) in Hlt.
      destruct (lookup_lt_is_Some_2 final p Hlt) as [j Hj].
      exists j.
      pose proof (take_lookup _ _ _ _ _ Hps Hj) as Hpj.
      pose proof (take_lookup _ _ _ _ _ Hcs Hj) as Hcj.
      destruct (colors out !! p) as [col|] eqn:Hcol.
      * exists col. split; [congruence|]. split; [done|]. split; [done|].
        intros Hn. rewrite Hn in Hns.
        pose proof (take_lookup _ _ _ _ _ Hns Hj) as Hnj.
        destruct (normals out !! p) as [n|] eqn:Hnp; [by exists n|].
        apply lookup_ge_None in Hnp. rewrite (take_length _ _ _ Hns) in Hnp. lia.
      * apply lookup_ge_None in Hcol. rewrite (take_length _ _ _ Hcs) in Hcol. lia.
    + intros _. split.
      * by rewrite (take_length _ _ _ Hps), (take_length _ _ _ Hcs).
      * destruct (has_normals c); [|done].
        by rewrite (take_length _ _ _ Hps), (take_length _ _ _ Hns).
Qed.

Lemma subset_property_witness :
  ∃ out,
    <[2%positive := sampled_two]> (one_cloud six_points) !! 2%positive = Some out
    ∧ (∀ p pt, points out !! p = Some pt →
        ∃ j col,
          points six_points !! j = Some pt
          ∧ colors six_points !! j = Some col ∧ colors out !! p = Some col
          ∧ (has_normals six_points = true →
             ∃ n, normals six_points !! j = Some n ∧ normals out !! p = Some n))
    ∧ (points six_points ≠ [] →
        length (colors out) = length (points out)
        ∧ if has_normals six_points then length (normals out) = length (points out)
          else normals out = []).
Proof.
  apply (subset_property (RS:=TapeRandom) 1%positive 1 1%float true
           (one_cloud six_points) [3; 1; 4; 1; 5]%nat six_points 2%positive _ []).
  - reflexivity.
  - vm_compute. reflexivity.
Defined.

(** C3, what the code does instead: [k] and [quantization] are never
    checked.  Whether a call raises depends on the cloud alone: with at
    least as many colours as points (an empty cloud included) it returns a
    cloud reference for every [k], every quantization step and either
    mode; with fewer colours than points it raises IndexError and leaves
    the heap alone, again whatever the parameters. *)
Theorem no_config_validation `{RS : RandomState} `{AS : !ArgSort bytes_le}
    (pcd : loc) (k : Z) (q : float) (uc : bool) (h : heap) (s : rng_state)
    (c : PointCloud) :
  h !! pcd = Some c →
  ∃ s',
    if (length (points c) <=? length (colors c))%nat
    then ∃ l h', prism_sampling pcd k q uc h s = (Return l, h', s')
    else prism_sampling pcd k q uc h s = (Raise IndexError, h, s').
Proof.
  intros Hc. destruct (Nat.leb_spec (length (points c)) (length (colors c))) as [Hlen|Hlen].
  - destruct (decide (points c = [])) as [Hemp|Hne].
    + exists s, pcd, h. unfold prism_sampling. by rewrite Hc, Hemp.
    + destruct (prism_sampling_total pcd k q uc h s c Hc Hne Hlen)
        as (o & sc & out & Hrun & _). by eexists _, _, _.
  - exact (prism_sampling_short pcd k q uc h s c Hc Hlen).
Qed.

Lemma no_config_validation_witness :
  ∃ s' l h',
    prism_sampling (RS:=TapeRandom) 1%positive 0 (-1)%float true
      (one_cloud six_points) [] = (Return l, h', s').
Proof.
  apply (no_config_validation (RS:=TapeRandom) 1%positive 0 (-1)%float true
           (one_cloud six_points) [] six_points).
  reflexivity.
Defined.

(** C3 as stated fails: [k = 0], a zero quantization step and a negative
    one are each answered with a cloud, not with an error. *)
Lemma invalid_config_returns :
  prism_sampling (RS:=TapeRandom) 1%positive 0 1%float true (one_cloud six_points) []
  = (Return 2%positive, <[2%positive := empty_cloud]> (one_cloud six_points), [])
  ∧ prism_sampling (RS:=TapeRandom) 1%positive 1 0%float true (one_cloud six_points) []
    = (Return 2%positive,
       <[2%positive := {| points := [(1, 0, 0)%float]; colors := [red]; normals := [] |}]>
         (one_cloud six_points), [])
  ∧ prism_sampling (RS:=TapeRandom) 1%positive 1 (-1)%float true (one_cloud six_points) []
    = (Return 2%positive,
       <[2%positive := {| points := [(3, 0, 0); (1, 0, 0)]%float; colors := [green; red];
                          normals := [] |}]> (one_cloud six_points), []).
Proof. repeat split; vm_compute; reflexivity. Qed.

(** C4 (determinism): what a call leaves to its caller -- the cloud
    returned and the random state -- is a function of the input cloud,
    the parameters and the random state alone: two calls that agree on
    these agree on the outcome, in whatever heap and at whatever
    reference the cloud lives.  Under every random state the bin cap
    holds, and two states of the tape generator do select different
    index sets from the six-point example. *)
Theorem determinism `{RS : RandomState} `{AS : !ArgSort bytes_le}
    (pcd1 pcd2 : loc) (h1 h2 : heap) (c : PointCloud)
    (k : Z) (q : float) (uc : bool) (s : rng_state) :
  h1 !! pcd1 = Some c → h2 !! pcd2 = Some c →
  outcome (prism_sampling pcd1 k q uc h1 s) = outcome (prism_sampling pcd2 k q uc h2 s)
  ∧ (has_colors c = true → 1 ≤ k →
     ∀ s2, ∃ out sf,
       outcome (prism_sampling pcd1 k q uc h1 s2) = (Return (Some out), sf)
       ∧ ∀ κ, (Z.of_nat (bin_count uc q κ (colors out)) ≤ k)
              ∧ (Z.of_nat (bin_count uc q κ (colors c)) < k →
                 bin_count uc q κ (colors out) = bin_count uc q κ (colors c)))
  ∧ (∃ ia ib,
       (select_indices (RS:=TapeRandom) (AS:=StableArgSort)
          (pack <$> (color_bin true 1 <$> colors six_points)) 6 1 []).1 = Return ia
       ∧ (select_indices (RS:=TapeRandom) (AS:=StableArgSort)
            (pack <$> (color_bin true 1 <$> colors six_points)) 6 1 [3; 1; 4; 1; 5]%nat).1
         = Return ib
       ∧ ¬ (∀ i, i ∈ ia ↔ i ∈ ib)).
Proof.
  intros Hc1 Hc2. split; [|split].
  - unfold prism_sampling. rewrite Hc1, Hc2.
    destruct (decide (length (points c) = 0%nat)); [simpl; congruence|].
    destruct (select_indices _ _ k s) as [[final|e] s1]; [|done].
    destruct (gather_cloud c final) as [out|e]; [|done].
    simpl. by rewrite !lookup_insert_eq.
  - intros Hcol Hk s2.
    destruct (prism_sampling_colored pcd1 k q uc h1 s2 c Hc1 Hcol)
      as (o & sc & out & Hrun & Ho & Hsc & Hsorted & Hout).
    apply has_colors_length in Hcol as [Hne Hlen].
    apply gather_cloud_Return in Hout as (_ & Hcs & _).
    exists out, (shuffle (Np.arange (length (points c))) s2).2.
    split; [rewrite Hrun; simpl; by rewrite lookup_insert_eq|].
    intros κ.
    rewrite (sampled_bin_count uc q k (colors c) (colors out) o sc κ)
      by (by rewrite ?Hlen).
    lia.
  - exists [3; 1]%nat, [5; 2]%nat. split; [by vm_compute|]. split; [by vm_compute|].
    intros Hsame. specialize (Hsame 3%nat).
    assert (3%nat ∈ [5; 2]%nat) as Hin by (apply Hsame; left).
    apply elem_of_cons in Hin as [?|Hin]; [done|].
    apply elem_of_cons in Hin as [?|Hin]; [done|].
    by apply elem_of_nil in Hin.
Qed.

Lemma determinism_witness :
  outcome (prism_sampling (RS:=TapeRandom) 1%positive 1 1%float true
             (one_cloud six_points) [3; 1; 4; 1; 5]%nat)
  = outcome (prism_sampling (RS:=TapeRandom) 2%positive 1 1%float true
               (<[2%positive := six_points]> (one_cloud empty_cloud))
               [3; 1; 4; 1; 5]%nat).
Proof.
  apply (determinism (RS:=TapeRandom) 1%positive 2%positive (one_cloud six_points)
           (<[2%positive := six_points]> (one_cloud empty_cloud)) six_points
           1 1%float true [3; 1; 4; 1; 5]%nat); reflexivity.
Defined.


(** ** Brightness scaling, evaluated

    The chromaticity mode puts the colour (1/4, 1/2, 1/8) and its double
    in one bin at step 1 where the raw mode separates them.  It does not
    do so for every pair: a colour and its 1024th part fall in different
    bins at step 1, and a colour and its double still do at a step near
    255, because a rounding boundary lies between their chromaticity
    coordinates.  At step 511 all three modes' examples share bin zero. *)
Lemma brightness_scaling_examples :
  color_bin true 1 (scale_color 2 (0.25, 0.5, 0.125)%float) = color_bin true 1 (0.25, 0.5, 0.125)%float
  ∧ color_bin false 1 (scale_color 2 (0.25, 0.5, 0.125)%float) ≠ color_bin false 1 (0.25, 0.5, 0.125)%float
  ∧ color_bin true 1 (scale_color 0.0009765625 (0.2530517578125, 0.5, 0.2469482421875)%float)
    ≠ color_bin true 1 (0.2530517578125, 0.5, 0.2469482421875)%float
  ∧ color_bin true 254.99981689453125 (scale_color 2 (0.5, 0.5, 0)%float)
    ≠ color_bin true 254.99981689453125 (0.5, 0.5, 0)%float
  ∧ color_bin true 511 (scale_color 2 (0.5, 0.5, 0)%float) = color_bin true 511 (0.5, 0.5, 0)%float.
Proof. repeat split; by vm_compute. Qed.

(** C7 (empty input): on a cloud without points the sampler hands back
    the very reference it was given and leaves the heap and the random
    state as they were, whatever [k], the quantization step and the
    chromaticity switch are; no exception is raised. *)
Theorem empty_input_noop `{RS : RandomState} `{AS : !ArgSort bytes_le}
    (pcd : loc) (k : Z) (q : float) (uc : bool) (h : heap) (s : rng_state)
    (c : PointCloud) :
  h !! pcd = Some c → points c = [] →
  prism_sampling pcd k q uc h s = (Return pcd, h, s).
Proof.
  intros Hc Hemp. unfold prism_sampling. by rewrite Hc, Hemp.
Qed.

Lemma empty_input_noop_witness :
  prism_sampling (RS:=TapeRandom) 1%positive (-3) 0%float false
    (one_cloud empty_cloud) [7; 7]%nat
  = (Return 1%positive, one_cloud empty_cloud, [7; 7]%nat).
Proof.
  apply (empty_input_noop (RS:=TapeRandom) 1%positive (-3) 0%float false
           (one_cloud empty_cloud) [7; 7]%nat empty_cloud); reflexivity.
Defined.

(** C8, what the code does instead: no cloud of the heap is ever changed,
    the input among them; for an input with points the reference returned
    is a location the heap did not have, so a new cloud; for an input
    without points it is the input's own reference, on an unchanged
    heap. *)
Theorem input_not_mutated `{RS : RandomState} `{AS : !ArgSort bytes_le}
    (pcd : loc) (k : Z) (q : float) (uc : bool) (h : heap) (s : rng_state)
    (c : PointCloud) (r : result loc) (h' : heap) (s' : rng_state) :
  h !! pcd = Some c →
  prism_sampling pcd k q uc h s = (r, h', s') →
  (∀ l' c', h !! l' = Some c' → h' !! l' = Some c')
  ∧ match r with
    | Return l =>
        if (length (points c) =? 0)%nat then l = pcd ∧ h' = h
        else l ≠ pcd ∧ h !! l = None ∧ is_Some (h' !! l)
    | Raise _ => True
    end.
Proof.
  intros Hc Hrun. unfold prism_sampling in Hrun. rewrite Hc in Hrun.
  assert (h !! fresh (dom h) = None) as Hfresh by apply not_elem_of_dom, is_fresh.
  assert (∀ out l' c', h !! l' = Some c' → <[fresh (dom h) := out]> h !! l' = Some c')
    as Hkeep.
  { intros out l' c' Hl'. rewrite lookup_insert_ne; [done|]. congruence. }
  destruct (Nat.eqb_spec (length (points c)) 0) as [Hemp|Hne].
  - rewrite decide_True in Hrun by done. by injection Hrun as <- <- <-.
  - rewrite decide_False in Hrun by done.
    destruct (select_indices _ _ k s) as [[final|e] s1].
    + destruct (gather_cloud c final) as [out|e]; injection Hrun as <- <- <-.
      * split; [by apply Hkeep|]. split; [congruence|].
        split; [done|]. rewrite lookup_insert_eq. by eexists.
      * split; [by apply Hkeep|done].
    + by injection Hrun as <- <- <-.
Qed.

Lemma input_not_mutated_witness :
  (∀ l' c', one_cloud six_points !! l' = Some c' →
     <[2%positive := sampled_two]> (one_cloud six_points) !! l' = Some c')
  ∧ 2%positive ≠ 1%positive
  ∧ one_cloud six_points !! 2%positive = None
  ∧ is_Some (<[2%positive := sampled_two]> (one_cloud six_points) !! 2%positive).
Proof.
  apply (input_not_mutated (RS:=TapeRandom) 1%positive 1 1%float true
           (one_cloud six_points) [3; 1; 4; 1; 5]%nat six_points (Return 2%positive)
           (<[2%positive := sampled_two]> (one_cloud six_points)) []).
  - reflexivity.
  - vm_compute. reflexivity.
Defined.

(** C8 as stated fails on a cloud without points: the reference returned
    is the reference given, so the output is the input object itself and
    shares all of its storage. *)
Lemma empty_input_aliased :
  ∃ l h' s',
    prism_sampling (RS:=TapeRandom) 1%positive 1 1%float true (one_cloud empty_cloud) []
    = (Return l, h', s')
    ∧ l = 1%positive ∧ h' = one_cloud empty_cloud.
Proof. exists 1%positive, (one_cloud empty_cloud), []. by vm_compute. Qed.

(** C9 (total division): for every colour with components in [0, 1],
    pure black among them, the denominator of the chromaticity transform
    -- the component sum plus 1e-6 -- is strictly greater than zero as a
    float64, so it is neither zero nor NaN and nothing is divided by
    zero; the three transformed components are floats that are neither
    NaN nor negative.  For pure black the denominator is the epsilon
    itself. *)
Theorem chromaticity_division_total (r g b : float) :
  (0 <=? r)%float = true → (r <=? 1)%float = true →
  (0 <=? g)%float = true → (g <=? 1)%float = true →
  (0 <=? b)%float = true → (b <=? 1)%float = true →
  (0 <? sum_colors (r, g, b))%float = true
  ∧ (∀ x y z, colors_to_bin true (r, g, b) = (x, y, z) →
       (0 <=? x)%float = true ∧ (0 <=? y)%float = true ∧ (0 <=? z)%float = true)
  ∧ sum_colors (0, 0, 0)%float = EPS.
Proof.
  intros Hr Hr1 Hg Hg1 Hb Hb1.
  assert (sf_pos (Prim2SF (sum_colors (r, g, b)))) as Hpos.
  { unfold sum_colors. apply add_pos; [|by vm_compute].
    by repeat apply add_nonneg; apply leb_zero_nonneg. }
  split; [by apply ltb_zero_pos|]. split; [|by vm_compute].
  intros x y z [= <- <- <-]. by repeat split; apply chroma_component_nonneg.
Qed.

Lemma chromaticity_division_total_witness :
  (0 <? sum_colors (0.5, 0.25, 1)%float)%float = true
  ∧ (∀ x y z, colors_to_bin true (0.5, 0.25, 1)%float = (x, y, z) →
       (0 <=? x)%float = true ∧ (0 <=? y)%float = true ∧ (0 <=? z)%float = true)
  ∧ sum_colors (0, 0, 0)%float = EPS.
Proof.
  apply (chromaticity_division_total 0.5 0.25 1); reflexivity.
Defined.

(** C10, what the code does instead: on a cloud with points, a [k] that
    is zero or negative empties the output only when the cloud has at
    least as many colours as points: the sampler then raises nothing and
    returns a new cloud, at a reference the heap did not have, that has
    no points, no colours and no normals.  With fewer colours than
    points the call raises IndexError and leaves the heap alone, for
    [k <= 0] as for any other [k]. *)
Theorem nonpositive_k_empties `{RS : RandomState} `{AS : !ArgSort bytes_le}
    (pcd : loc) (k : Z) (q : float) (uc : bool) (h : heap) (s : rng_state)
    (c : PointCloud) :
  h !! pcd = Some c → (0 < length (points c))%nat → k ≤ 0 →
  ∃ s',
    if (length (points c) <=? length (colors c))%nat
    then ∃ l, prism_sampling pcd k q uc h s = (Return l, <[l := empty_cloud]> h, s')
              ∧ h !! l = None
    else prism_sampling pcd k q uc h s = (Raise IndexError, h, s').
Proof.
  intros Hc Hpos Hk.
  destruct (Nat.leb_spec (length (points c)) (length (colors c))) as [Hlen|Hlen];
    [|exact (prism_sampling_short pcd k q uc h s c Hc Hlen)].
  assert (points c ≠ []) as Hne by (destruct (points c); [simpl in Hpos; lia|done]).
  destruct (prism_sampling_total pcd k q uc h s c Hc Hne Hlen)
    as (o & sc & out & Hrun & Ho & Hsc & Hsorted & Hout).
  rewrite compress_none in Hout;
    [|done|exact (run_counter_nonneg sc (sorted_grouped bytes_le sc Hsorted))].
  apply gather_cloud_Return in Hout as (Hps & Hcs & Hns).
  assert (out = empty_cloud) as ->.
  { rewrite take_nil in Hps, Hcs.
    destruct (has_normals c); [rewrite take_nil in Hns|];
      destruct out as [ps cs ns]; simpl in *; by simplify_eq. }
  eexists _, _. split; [done|].
  apply not_elem_of_dom, is_fresh.
Qed.

Lemma nonpositive_k_empties_witness :
  ∃ s' l,
    prism_sampling (RS:=TapeRandom) 1%positive 0 1%float true (one_cloud six_points)
      [3; 1; 4; 1; 5]%nat
    = (Return l, <[l := empty_cloud]> (one_cloud six_points), s')
    ∧ one_cloud six_points !! l = None.
Proof.
  apply (nonpositive_k_empties (RS:=TapeRandom) 1%positive 0 1%float true
           (one_cloud six_points) [3; 1; 4; 1; 5]%nat six_points).
  - reflexivity.
  - simpl. lia.
  - lia.
Defined.

(** C10 as stated fails on a cloud that has points and no colours: with
    [k = 0], and with [k = -1], the call raises IndexError instead of
    returning a cloud without points. *)
Lemma nonpositive_k_raises :
  prism_sampling (RS:=TapeRandom) 1%positive 0 1%float true
    (one_cloud {| points := points six_points; colors := []; normals := [] |})
    [3; 1; 4; 1; 5]%nat
  = (Raise IndexError,
     one_cloud {| points := points six_points; colors := []; normals := [] |}, [])
  ∧ prism_sampling (RS:=TapeRandom) 1%positive (-1) 1%float true
      (one_cloud {| points := points six_points; colors := []; normals := [] |})
      [3; 1; 4; 1; 5]%nat
    = (Raise IndexError,
       one_cloud {| points := points six_points; colors := []; normals := [] |}, []).
Proof. split; vm_compute; reflexivity. Qed.

(** * Further properties of the sampler *)

(** ** More on masks, runs and sorted keys *)

Lemma compress_all {A} (m : list bool) (a : list A) :
  Forall (λ b, b = true) m → length m = length a → Np.compress m a = a.
Proof.
  intros Hm. revert a. induction Hm as [|b m -> _ IH]; intros [|x a] Hlen;
    simplify_eq/=; [done|]. f_equal. by apply IH.
Qed.

Lemma compress_mono {A} (m m' : list bool) (a : list A) :
  Forall2 (λ b b', b = true → b' = true) m m' →
  Np.compress m a `sublist_of` Np.compress m' a.
Proof.
  intros Hm. revert a. induction Hm as [|b b' m m' Hb _ IH]; intros [|x a]; simpl;
    try constructor.
  destruct b, b'.
  - constructor. apply IH.
  - by discriminate Hb.
  - constructor. apply IH.
  - apply IH.
Qed.

Lemma less_scalar_mono (l : list Z) (k k' : Z) :
  k ≤ k' → Forall2 (λ b b', b = true → b' = true) (less_scalar l k) (less_scalar l k').
Proof.
  intros Hk. unfold less_scalar. apply Forall2_fmap, Forall_Forall2_diag, Forall_forall.
  intros z _. rewrite !bool_decide_eq_true. lia.
Qed.

Lemma take_sublist {A} (a : list A) idx idx' b :
  idx' `sublist_of` idx → Np.take a idx = Some b →
  ∃ b', Np.take a idx' = Some b' ∧ b' `sublist_of` b.
Proof.
  intros Hs. revert b.
  induction Hs as [|i idx' idx _ IH|i idx' idx _ IH]; intros b Hb.
  - exists []. split; [done|]. apply sublist_nil_l.
  - apply take_Some, Forall2_cons_inv_l in Hb as (x & b0 & Hx & Hb0 & ->).
    apply take_Some in Hb0. destruct (IH _ Hb0) as (b' & Hb' & Hsub).
    exists (x :: b'). split; [|by constructor].
    apply take_Some. constructor; [done|]. by apply take_Some.
  - apply take_Some, Forall2_cons_inv_l in Hb as (x & b0 & Hx & Hb0 & ->).
    apply take_Some in Hb0. destruct (IH _ Hb0) as (b' & Hb' & Hsub).
    exists b'. split; [done|]. by constructor.
Qed.

Lemma sublist_strongly_sorted {A} (R : relation A) (l1 l2 : list A) :
  l1 `sublist_of` l2 → StronglySorted R l2 → StronglySorted R l1.
Proof.
  induction 1 as [|x l1 l2 Hs IH|x l1 l2 Hs IH]; intros Hl2; [done|..].
  - apply StronglySorted_cons in Hl2 as [Hx Hl2].
    apply StronglySorted_cons. split; [|by apply IH].
    apply Forall_forall. intros y Hy. rewrite Forall_forall in Hx.
    apply Hx. by eapply elem_of_sublist.
  - apply StronglySorted_cons in Hl2 as [_ Hl2]. by apply IH.
Qed.

(** In keys that come in runs, the counter of a position is below the
    number of occurrences of its key. *)
Lemma run_counter_lt_occ {K} `{EqDecision K} (ar : list K) :
  grouped ar → Forall2 (λ z y, z < Z.of_nat (occ y ar)) (run_counter ar) ar.
Proof.
  induction 1 as [|x c rest Hx Hg IH]; [constructor|].
  rewrite run_counter_run by done. apply Forall2_app.
  - apply Forall2_fmap_l, Forall2_replicate_r; [by rewrite length_seq|].
    apply Forall_forall. intros i Hi%elem_of_seq. unfold flip, compose.
    rewrite occ_app, occ_replicate, decide_True by done. lia.
  - eapply Forall2_impl; [apply IH|]. intros z y Hz. cbn beta in *.
    rewrite occ_app. lia.
Qed.

(** ** The selected indices *)

Section Selected.
Context `{RS : RandomState} `{AS : !ArgSort bytes_le}.

(** Whenever indices are selected, they are the masked sorted order. *)
Lemma select_indices_Return colors_packed N k s final s' :
  select_indices colors_packed N k s = (Return final, s') →
  ∃ o sc,
    final = Np.compress (less_scalar (run_counter sc) k) o
    ∧ o ≡ₚ Np.arange N
    ∧ Np.take colors_packed o = Some sc
    ∧ Sorted (key_le bytes_le) sc
    ∧ (N ≤ length colors_packed)%nat.
Proof.
  intros Hsel.
  destruct (decide (N ≤ length colors_packed)%nat) as [Hle|Hgt].
  - destruct (select_indices_spec colors_packed N k s Hle)
      as (o & sc & Hspec & Ho & Hsc & Hsorted).
    rewrite Hspec in Hsel. injection Hsel as <- _. by exists o, sc.
  - pose proof (select_indices_short colors_packed N k s) as Hshort.
    rewrite Hsel in Hshort. simpl in Hshort. discriminate Hshort. lia.
Qed.

Lemma compress_arange_NoDup (m : list bool) o N :
  o ≡ₚ Np.arange N → NoDup (Np.compress m o) ∧ Forall (λ i, i < N)%nat (Np.compress m o).
Proof.
  intros Ho. split.
  - eapply sublist_NoDup; [|apply compress_sublist]. rewrite Ho. apply NoDup_seq.
  - apply Forall_forall. intros i Hi.
    eapply elem_of_sublist in Hi; [|apply compress_sublist].
    pose proof (arange_in_range _ _ Ho) as Hr. rewrite Forall_forall in Hr. auto.
Qed.
End Selected.

(** X1 (no point twice): every cloud returned for an input with points is
    the gather of the input along one list of indices that are in range
    and pairwise different, so no input point occurs twice in the
    output. *)
Theorem sampled_indices_distinct `{RS : RandomState} `{AS : !ArgSort bytes_le}
    (pcd : loc) (k : Z) (q : float) (uc : bool) (h : heap) (s : rng_state)
    (c : PointCloud) (l : loc) (h' : heap) (s' : rng_state) :
  h !! pcd = Some c → (0 < length (points c))%nat →
  prism_sampling pcd k q uc h s = (Return l, h', s') →
  ∃ final out,
    h' !! l = Some out
    ∧ NoDup final
    ∧ Forall (λ i, i < length (points c))%nat final
    ∧ Np.take (points c) final = Some (points out)
    ∧ Np.take (colors c) final = Some (colors out)
    ∧ (has_normals c = true → Np.take (normals c) final = Some (normals out)).
Proof.
  intros Hc Hpos Hrun.
  assert (points c ≠ []) as Hne by (destruct (points c); [simpl in Hpos; lia|done]).
  destruct (prism_sampling_Return _ _ _ _ _ _ _ _ _ _ Hc Hne Hrun)
    as (final & out & Hsel & Hout & -> & ->).
  destruct (select_indices _ _ k s) as [r s1] eqn:Hsel'. simpl in Hsel. subst r.
  destruct (select_indices_Return _ _ _ _ _ _ Hsel') as (o & sc & -> & Ho & _).
  destruct (compress_arange_NoDup (less_scalar (run_counter sc) k) o _ Ho) as [Hnd Hr].
  apply gather_cloud_Return in Hout as (Hps & Hcs & Hns).
  eexists _, out. split; [apply lookup_insert_eq|]. repeat split; try done.
  intros Hn. by rewrite Hn in Hns.
Qed.

Lemma sampled_indices_distinct_witness :
  ∃ final out,
    <[2%positive := sampled_two]> (one_cloud six_points) !! 2%positive = Some out
    ∧ NoDup final
    ∧ Forall (λ i, i < length (points six_points))%nat final
    ∧ Np.take (points six_points) final = Some (points out)
    ∧ Np.take (colors six_points) final = Some (colors out)
    ∧ (has_normals six_points = true →
       Np.take (normals six_points) final = Some (normals out)).
Proof.
  apply (sampled_indices_distinct (RS:=TapeRandom) 1%positive 1 1%float true
           (one_cloud six_points) [3; 1; 4; 1; 5]%nat six_points 2%positive _ []).
  - reflexivity.
  - simpl. lia.
  - vm_compute. reflexivity.
Defined.

(** ** The bins of the output *)

Lemma occ_le_1_NoDup {K} `{EqDecision K} (l : list K) :
  (∀ x, occ x l ≤ 1)%nat → NoDup l.
Proof.
  induction l as [|x l IH]; intros Hocc; constructor.
  - intros Hx. apply occ_pos_elem in Hx. specialize (Hocc x).
    unfold occ in *. rewrite filter_cons, decide_True in Hocc by done.
    simpl in Hocc. lia.
  - apply IH. intros y. specialize (Hocc y). unfold occ in *.
    rewrite filter_cons in Hocc. destruct (decide (x = y)); simpl in Hocc; lia.
Qed.

Lemma pack_fmap_inj (l1 l2 : list key3) :
  Forall in_int32 l1 → Forall in_int32 l2 → pack <$> l1 = pack <$> l2 → l1 = l2.
Proof.
  intros H1. revert l2. induction H1 as [|x l1 Hx _ IH]; intros [|y l2] H2 Heq;
    simplify_eq/=; [done|].
  apply Forall_cons in H2 as [Hy H2]. f_equal; [by apply pack_inj|by apply IH].
Qed.

Lemma color_bins_in_int32 uc q (l : list vec3) : Forall in_int32 (color_bin uc q <$> l).
Proof. apply Forall_fmap, Forall_true. intros x. apply color_bin_in_int32. Qed.

(** The packed keys of the colours kept are the sorted keys, masked. *)
Lemma sampled_keys uc q (k : Z) (cs cs' : list vec3) o sc :
  Np.take (pack <$> (color_bin uc q <$> cs)) o = Some sc →
  Np.take cs (Np.compress (less_scalar (run_counter sc) k) o) = Some cs' →
  pack <$> (color_bin uc q <$> cs') = Np.compress (less_scalar (run_counter sc) k) sc.
Proof.
  intros Hsc Hcs'.
  apply (take_fmap (color_bin uc q)), (take_fmap pack) in Hcs'.
  rewrite (take_compress _ _ _ _ Hsc) in Hcs'. by injection Hcs' as <-.
Qed.

(** The sorted keys are the same list whatever permutation sorted them. *)
Lemma sorted_keys_unique (P sc1 sc2 : list packed) o1 o2 :
  o1 ≡ₚ Np.arange (length P) → o2 ≡ₚ Np.arange (length P) →
  Np.take P o1 = Some sc1 → Np.take P o2 = Some sc2 →
  Sorted (key_le bytes_le) sc1 → Sorted (key_le bytes_le) sc2 →
  sc1 = sc2.
Proof.
  intros Ho1 Ho2 H1 H2 Hs1 Hs2.
  apply (Sorted_unique (key_le bytes_le)); [done|done|].
  rewrite (take_perm_arange _ _ _ Ho1 H1). symmetry.
  apply (take_perm_arange _ _ _ Ho2 H2).
Qed.

(** X2 (no bin is lost): on a cloud whose colours are aligned with its
    non-empty points and for every [k >= 1], every colour of the input
    has a colour of its bin in the output, and the output occupies as
    many bins as the input. *)
Theorem every_bin_survives `{RS : RandomState} `{AS : !ArgSort bytes_le}
    (pcd : loc) (k : Z) (q : float) (uc : bool) (h : heap) (s : rng_state)
    (c : PointCloud) :
  h !! pcd = Some c → has_colors c = true → 1 ≤ k →
  ∃ l out s',
    prism_sampling pcd k q uc h s = (Return l, <[l := out]> h, s')
    ∧ (∀ col, col ∈ colors c →
         ∃ col', col' ∈ colors out ∧ color_bin uc q col' = color_bin uc q col)
    ∧ distinct_bins uc q (colors out) = distinct_bins uc q (colors c).
Proof.
  intros Hc Hcol Hk.
  destruct (prism_sampling_colored pcd k q uc h s c Hc Hcol)
    as (o & sc & out & Hrun & Ho & Hsc & Hsorted & Hout).
  apply has_colors_length in Hcol as [Hne Hlen].
  apply gather_cloud_Return in Hout as (Hps & Hcs & _).
  assert (∀ κ, bin_count uc q κ (colors out)
               = (Z.to_nat k `min` bin_count uc q κ (colors c))%nat) as Hcount.
  { intros κ. eapply sampled_bin_count; [|done|done|done]. by rewrite Hlen. }
  assert (∀ κ, κ ∈ color_bin uc q <$> colors out ↔ κ ∈ color_bin uc q <$> colors c)
    as Hsame.
  { intros κ. rewrite <-!occ_pos_elem. specialize (Hcount κ).
    unfold bin_count in Hcount. lia. }
  eexists _, out, _. split; [done|]. split.
  - intros col Hin.
    assert (color_bin uc q col ∈ color_bin uc q <$> colors out) as Hb.
    { apply Hsame, list_elem_of_fmap. by exists col. }
    apply list_elem_of_fmap in Hb as (col' & Heq & Hin'). by exists col'.
  - unfold distinct_bins. apply Permutation_length, NoDup_Permutation.
    + apply NoDup_remove_dups.
    + apply NoDup_remove_dups.
    + intros κ. by rewrite !elem_of_remove_dups.
Qed.

Lemma every_bin_survives_witness :
  ∃ l out s',
    prism_sampling (RS:=TapeRandom) 1%positive 1 1%float true (one_cloud six_points)
      [3; 1; 4; 1; 5]%nat
    = (Return l, <[l := out]> (one_cloud six_points), s')
    ∧ (∀ col, col ∈ colors six_points →
         ∃ col', col' ∈ colors out
                 ∧ color_bin true 1%float col' = color_bin true 1%float col)
    ∧ distinct_bins true 1%float (colors out)
      = distinct_bins true 1%float (colors six_points).
Proof.
  apply (every_bin_survives (RS:=TapeRandom) 1%positive 1 1%float true
           (one_cloud six_points) [3; 1; 4; 1; 5]%nat six_points).
  - reflexivity.
  - reflexivity.
  - lia.
Defined.

(** X3 (one per bin): on a cloud with points and a colour for each of
    them (Open3D's [has_colors]), with [k = 1] the output has exactly
    one point for every bin the input occupies, and no two of its
    colours share a bin. *)
Theorem one_point_per_bin `{RS : RandomState} `{AS : !ArgSort bytes_le}
    (pcd : loc) (q : float) (uc : bool) (h : heap) (s : rng_state)
    (c : PointCloud) :
  h !! pcd = Some c → has_colors c = true →
  ∃ l out s',
    prism_sampling pcd 1 q uc h s = (Return l, <[l := out]> h, s')
    ∧ length (points out) = distinct_bins uc q (colors c)
    ∧ NoDup (color_bin uc q <$> colors out).
Proof.
  intros Hc Hcol.
  destruct (prism_sampling_colored pcd 1 q uc h s c Hc Hcol)
    as (o & sc & out & Hrun & Ho & Hsc & Hsorted & Hout).
  apply has_colors_length in Hcol as [Hne Hlen].
  apply gather_cloud_Return in Hout as (Hps & Hcs & _).
  assert (∀ κ, bin_count uc q κ (colors out)
               = (Z.to_nat 1 `min` bin_count uc q κ (colors c))%nat) as Hcount.
  { intros κ. eapply sampled_bin_count; [|done|done|done]. by rewrite Hlen. }
  assert (NoDup (color_bin uc q <$> colors out)) as Hnd.
  { apply occ_le_1_NoDup. intros κ. specialize (Hcount κ).
    unfold bin_count in Hcount. lia. }
  eexists _, out, _. split; [done|]. split; [|done].
  rewrite (take_length _ _ _ Hps), <-(take_length _ _ _ Hcs).
  rewrite <-(length_fmap (color_bin uc q)). unfold distinct_bins.
  apply Permutation_length, NoDup_Permutation; [done|apply NoDup_remove_dups|].
  intros κ. rewrite elem_of_remove_dups, <-!occ_pos_elem.
  specialize (Hcount κ). unfold bin_count in Hcount. lia.
Qed.

Lemma one_point_per_bin_witness :
  ∃ l out s',
    prism_sampling (RS:=TapeRandom) 1%positive 1 0.5%float false (one_cloud six_points)
      [2; 7; 1; 8]%nat
    = (Return l, <[l := out]> (one_cloud six_points), s')
    ∧ length (points out) = distinct_bins false 0.5%float (colors six_points)
    ∧ NoDup (color_bin false 0.5%float <$> colors out).
Proof.
  apply (one_point_per_bin (RS:=TapeRandom) 1%positive 0.5%float false
           (one_cloud six_points) [2; 7; 1; 8]%nat six_points); reflexivity.
Defined.

(** X4 (a large [k] keeps everything): on a cloud with points and a
    colour for each of them (Open3D's [has_colors]), when [k] is at
    least the number of points, the output is the input reordered: it is
    the gather of the input along a permutation of all its indices, so
    its points and colours, and its normals when the input has them, are
    permutations of the input's. *)
Theorem large_k_keeps_all `{RS : RandomState} `{AS : !ArgSort bytes_le}
    (pcd : loc) (k : Z) (q : float) (uc : bool) (h : heap) (s : rng_state)
    (c : PointCloud) :
  h !! pcd = Some c → has_colors c = true → Z.of_nat (length (points c)) ≤ k →
  ∃ l out s' o,
    prism_sampling pcd k q uc h s = (Return l, <[l := out]> h, s')
    ∧ o ≡ₚ Np.arange (length (points c))
    ∧ Np.take (points c) o = Some (points out)
    ∧ Np.take (colors c) o = Some (colors out)
    ∧ points out ≡ₚ points c
    ∧ colors out ≡ₚ colors c
    ∧ (has_normals c = true → normals out ≡ₚ normals c).
Proof.
  intros Hc Hcol Hk.
  destruct (prism_sampling_colored pcd k q uc h s c Hc Hcol)
    as (o & sc & out & Hrun & Ho & Hsc & Hsorted & Hout).
  apply has_colors_length in Hcol as [Hne Hlen].
  pose proof (sorted_grouped bytes_le sc Hsorted) as Hg.
  pose proof (take_length _ _ _ Hsc) as Hsclen.
  assert (length o = length (points c)) as Holen.
  { rewrite Ho. unfold Np.arange. by rewrite length_seq. }
  rewrite compress_all in Hout; last first.
  { unfold less_scalar. by rewrite length_fmap, run_counter_length, Hsclen. }
  { unfold less_scalar. apply Forall_fmap, Forall_forall. intros z Hz. simpl.
    apply bool_decide_eq_true.
    apply list_elem_of_lookup in Hz as [p Hp].
    destruct (Forall2_lookup_l _ _ _ _ _ (run_counter_lt_occ sc Hg) Hp) as (y & _ & Hlt).
    pose proof (occ_le_length y sc). lia. }
  apply gather_cloud_Return in Hout as (Hps & Hcs & Hns).
  eexists _, out, _, o. split; [done|]. split; [done|]. split; [done|]. split; [done|].
  split; [|split].
  - eapply take_perm_arange; [|done]. done.
  - eapply take_perm_arange; [|done]. by rewrite Hlen.
  - intros Hn. rewrite Hn in Hns. eapply take_perm_arange; [|done].
    unfold has_normals in Hn. apply bool_decide_eq_true in Hn as [_ ->]. done.
Qed.

Lemma large_k_keeps_all_witness :
  ∃ l out s' o,
    prism_sampling (RS:=TapeRandom) 1%positive 6 1%float true (one_cloud six_points)
      [3; 1; 4; 1; 5]%nat
    = (Return l, <[l := out]> (one_cloud six_points), s')
    ∧ o ≡ₚ Np.arange (length (points six_points))
    ∧ Np.take (points six_points) o = Some (points out)
    ∧ Np.take (colors six_points) o = Some (colors out)
    ∧ points out ≡ₚ points six_points
    ∧ colors out ≡ₚ colors six_points
    ∧ (has_normals six_points = true → normals out ≡ₚ normals six_points).
Proof.
  apply (large_k_keeps_all (RS:=TapeRandom) 1%positive 6 1%float true
           (one_cloud six_points) [3; 1; 4; 1; 5]%nat six_points).
  - reflexivity.
  - reflexivity.
  - simpl. lia.
Defined.

Lemma sorted_keys_grouped (bs : list key3) :
  StronglySorted (key_le bytes_le) (pack <$> bs) → Forall in_int32 bs → grouped bs.
Proof.
  remember (length bs) as n eqn:Hn. revert bs Hn.
  induction n as [n IH] using lt_wf_ind. intros [|x l] -> Hss Hin; [constructor|].
  destruct (run_split x l) as (m & rest & -> & Hr).
  change (x :: replicate m x ++ rest) with (replicate (S m) x ++ rest) in *.
  rewrite fmap_app in Hss.
  apply Forall_app in Hin as [Hinx Hinr].
  constructor.
  - intros Hx. destruct rest as [|y r]; [by apply elem_of_nil in Hx|].
    assert (y ≠ x) as Hyx by (simpl in Hr; congruence).
    apply elem_of_cons in Hx as [Hx|Hx]; [done|].
    pose proof (StronglySorted_app_1_r _ _ _ Hss) as Hrest.
    rewrite fmap_cons in Hrest. apply StronglySorted_cons in Hrest as [Hy _].
    rewrite Forall_forall in Hy.
    assert (key_le bytes_le (pack y) (pack x)) as Hyx'.
    { apply Hy, list_elem_of_fmap. by exists x. }
    assert (key_le bytes_le (pack x) (pack y)) as Hxy'.
    { eapply (StronglySorted_app_1_elem_of _ _ _ _ _ Hss).
      - rewrite fmap_replicate. simpl. left.
      - rewrite fmap_cons. left. }
    apply Hyx. apply pack_inj.
    + by apply Forall_cons in Hinr as [? _].
    + by apply Forall_cons in Hinx as [? _].
    + by apply (anti_symm (key_le bytes_le)).
  - eapply IH; [|done| |done].
    + rewrite length_app. simpl. lia.
    + by apply StronglySorted_app_1_r in Hss.
Qed.

(** X5 (the output is ordered by bin): the packed keys of the output's
    colours are in bytewise order, so the points of one bin are adjacent
    in the output and the bins follow each other in the order of their
    twelve bytes. *)
Theorem output_sorted_by_key `{RS : RandomState} `{AS : !ArgSort bytes_le}
    (pcd : loc) (k : Z) (q : float) (uc : bool) (h : heap) (s : rng_state)
    (c : PointCloud) (l : loc) (h' : heap) (s' : rng_state) :
  h !! pcd = Some c → (0 < length (points c))%nat →
  prism_sampling pcd k q uc h s = (Return l, h', s') →
  ∃ out,
    h' !! l = Some out
    ∧ StronglySorted (key_le bytes_le) (pack <$> (color_bin uc q <$> colors out))
    ∧ grouped (color_bin uc q <$> colors out).
Proof.
  intros Hc Hpos Hrun.
  assert (points c ≠ []) as Hne by (destruct (points c); [simpl in Hpos; lia|done]).
  destruct (prism_sampling_Return _ _ _ _ _ _ _ _ _ _ Hc Hne Hrun)
    as (final & out & Hsel & Hout & -> & ->).
  destruct (select_indices _ _ k s) as [r s1] eqn:Hsel'. simpl in Hsel. subst r.
  destruct (select_indices_Return _ _ _ _ _ _ Hsel') as (o & sc & -> & Ho & Hsc & Hsorted & _).
  apply gather_cloud_Return in Hout as (_ & Hcs & _).
  pose proof (sampled_keys uc q k _ _ o sc Hsc Hcs) as Hkeys.
  assert (StronglySorted (key_le bytes_le) (pack <$> (color_bin uc q <$> colors out)))
    as Hss.
  { rewrite Hkeys. eapply sublist_strongly_sorted; [apply compress_sublist|].
    apply Sorted_StronglySorted; [apply bytes_le_Transitive|done]. }
  exists out. split; [apply lookup_insert_eq|]. split; [done|].
  apply sorted_keys_grouped; [done|apply color_bins_in_int32].
Qed.

Lemma output_sorted_by_key_witness :
  ∃ out,
    <[2%positive := sampled_two]> (one_cloud six_points) !! 2%positive = Some out
    ∧ StronglySorted (key_le bytes_le) (pack <$> (color_bin true 1%float <$> colors out))
    ∧ grouped (color_bin true 1%float <$> colors out).
Proof.
  apply (output_sorted_by_key (RS:=TapeRandom) 1%positive 1 1%float true
           (one_cloud six_points) [3; 1; 4; 1; 5]%nat six_points 2%positive _ []).
  - reflexivity.
  - simpl. lia.
  - vm_compute. reflexivity.
Defined.

(** The order left by the shuffle and the sort, and the sorted keys, are
    the same for every [k]. *)
Lemma select_indices_all_k `{RS : RandomState} `{AS : !ArgSort bytes_le}
    colors_packed N s :
  (N ≤ length colors_packed)%nat →
  ∃ o sc,
    (∀ k, select_indices colors_packed N k s
          = (Return (Np.compress (less_scalar (run_counter sc) k) o),
             (shuffle (Np.arange N) s).2))
    ∧ o ≡ₚ Np.arange N
    ∧ Np.take colors_packed o = Some sc
    ∧ Sorted (key_le bytes_le) sc.
Proof.
  intros HN.
  destruct (shuffle_sort_spec colors_packed N s HN)
    as (cps & sc & o & Hcps & Hsc & Ho & Hlen & Hperm & Hkeys & Hsorted).
  exists o, sc. split; [|done]. intros k. unfold select_indices.
  destruct (shuffle (Np.arange N) s) as [sh s']. simpl in *.
  rewrite Hcps. simpl. rewrite Hsc. simpl.
  rewrite stratified_mask_sorted by done. simpl.
  unfold Np.mask_index. rewrite decide_True; last first.
  { unfold less_scalar. rewrite length_fmap, run_counter_length; [done|].
    exact (sorted_grouped bytes_le sc Hsorted). }
  simpl. by rewrite (take_compress _ _ _ _ Ho).
Qed.

(** X6 (the bins of the output do not depend on chance): for one cloud
    and one choice of parameters, the sequence of colour bins of the
    output, and so the number of points kept, is the same for every
    generator, every random state and every sort that meets the contract
    of [np.argsort]; only which member of a bin is kept varies. *)
Theorem output_bins_fixed (RS1 RS2 : RandomState) (AS1 AS2 : ArgSort bytes_le)
    (pcd : loc) (k : Z) (q : float) (uc : bool) (h : heap)
    (s1 : @rng_state RS1) (s2 : @rng_state RS2) (c : PointCloud) :
  h !! pcd = Some c → has_colors c = true →
  ∃ l out1 out2 s1' s2',
    prism_sampling (RS:=RS1) (AS:=AS1) pcd k q uc h s1 = (Return l, <[l := out1]> h, s1')
    ∧ prism_sampling (RS:=RS2) (AS:=AS2) pcd k q uc h s2 = (Return l, <[l := out2]> h, s2')
    ∧ color_bin uc q <$> colors out1 = color_bin uc q <$> colors out2
    ∧ length (points out1) = length (points out2).
Proof.
  intros Hc Hcol.
  destruct (prism_sampling_colored (RS:=RS1) (AS:=AS1) pcd k q uc h s1 c Hc Hcol)
    as (o1 & sc1 & out1 & Hrun1 & Ho1 & Hsc1 & Hsorted1 & Hout1).
  destruct (prism_sampling_colored (RS:=RS2) (AS:=AS2) pcd k q uc h s2 c Hc Hcol)
    as (o2 & sc2 & out2 & Hrun2 & Ho2 & Hsc2 & Hsorted2 & Hout2).
  apply has_colors_length in Hcol as [_ Hlen].
  apply gather_cloud_Return in Hout1 as (Hps1 & Hcs1 & _).
  apply gather_cloud_Return in Hout2 as (Hps2 & Hcs2 & _).
  assert (sc1 = sc2) as <-.
  { eapply (sorted_keys_unique _ _ _ o1 o2); [| |done|done|done|done];
      by rewrite !length_fmap, Hlen. }
  assert (color_bin uc q <$> colors out1 = color_bin uc q <$> colors out2) as Hbins.
  { apply pack_fmap_inj; [apply color_bins_in_int32..|].
    rewrite (sampled_keys uc q k _ _ o1 sc1 Hsc1 Hcs1).
    by rewrite (sampled_keys uc q k _ _ o2 sc1 Hsc2 Hcs2). }
  eexists _, out1, out2, _, _. split; [done|]. split; [done|]. split; [done|].
  apply take_length in Hps1, Hps2, Hcs1, Hcs2.
  apply (f_equal length) in Hbins. rewrite !length_fmap in Hbins. lia.
Qed.

(** X7 (raising [k] only adds points): with the same random state, the
    output for [k] is a subsequence of the output for any [k' ≥ k]:
    points, colours and normals of the smaller output appear, in order,
    in the larger one. *)
Theorem raising_k_adds_points `{RS : RandomState} `{AS : !ArgSort bytes_le}
    (pcd : loc) (k k' : Z) (q : float) (uc : bool) (h : heap) (s : rng_state)
    (c : PointCloud) :
  h !! pcd = Some c → has_colors c = true → k ≤ k' →
  ∃ l out out' s',
    prism_sampling pcd k q uc h s = (Return l, <[l := out]> h, s')
    ∧ prism_sampling pcd k' q uc h s = (Return l, <[l := out']> h, s')
    ∧ points out `sublist_of` points out'
    ∧ colors out `sublist_of` colors out'
    ∧ normals out `sublist_of` normals out'.
Proof.
  intros Hc Hcol Hk.
  apply has_colors_length in Hcol as [Hne Hlen].
  destruct (select_indices_all_k (pack <$> (color_bin uc q <$> colors c))
              (length (points c)) s) as (o & sc & Hsel & Ho & Hsc & Hsorted).
  { rewrite !length_fmap. lia. }
  assert (∀ k0, Forall (λ i, i < length (points c))%nat
                  (Np.compress (less_scalar (run_counter sc) k0) o)) as Hrange.
  { intros k0. by apply compress_arange_NoDup. }
  destruct (gather_cloud_in_range c _ (Hrange k')) as [out' Hout']; [lia|].
  destruct (gather_cloud_in_range c _ (Hrange k)) as [out Hout]; [lia|].
  exists (fresh (dom h)), out, out', (shuffle (Np.arange (length (points c))) s).2.
  assert (∀ k0 o0,
    gather_cloud c (Np.compress (less_scalar (run_counter sc) k0) o) = Return o0 →
    prism_sampling pcd k0 q uc h s
    = (Return (fresh (dom h)), <[fresh (dom h) := o0]> h,
       (shuffle (Np.arange (length (points c))) s).2)) as Hrun.
  { intros k0 o0 Ho0. unfold prism_sampling. rewrite Hc.
    rewrite decide_False by (destruct (points c); simpl; [done|lia]).
    cbv zeta. rewrite Hsel. by rewrite Ho0. }
  split; [by apply Hrun|]. split; [by apply Hrun|].
  pose proof (compress_mono _ _ o (less_scalar_mono (run_counter sc) k k' Hk)) as Hsub.
  apply gather_cloud_Return in Hout as (Hps & Hcs & Hns).
  apply gather_cloud_Return in Hout' as (Hps' & Hcs' & Hns').
  split; [|split].
  - destruct (take_sublist _ _ _ _ Hsub Hps') as (b & Hb & Hbs). by simplify_eq.
  - destruct (take_sublist _ _ _ _ Hsub Hcs') as (b & Hb & Hbs). by simplify_eq.
  - destruct (has_normals c).
    + destruct (take_sublist _ _ _ _ Hsub Hns') as (b & Hb & Hbs). by simplify_eq.
    + by rewrite Hns, Hns'.
Qed.

Lemma raising_k_adds_points_witness :
  ∃ l out out' s',
    prism_sampling (RS:=TapeRandom) 1%positive 1 1%float true (one_cloud six_points)
      [3; 1; 4; 1; 5]%nat
    = (Return l, <[l := out]> (one_cloud six_points), s')
    ∧ prism_sampling (RS:=TapeRandom) 1%positive 2 1%float true (one_cloud six_points)
        [3; 1; 4; 1; 5]%nat
      = (Return l, <[l := out']> (one_cloud six_points), s')
    ∧ points out `sublist_of` points out'
    ∧ colors out `sublist_of` colors out'
    ∧ normals out `sublist_of` normals out'.
Proof.
  apply (raising_k_adds_points (RS:=TapeRandom) 1%positive 1 2 1%float true
           (one_cloud six_points) [3; 1; 4; 1; 5]%nat six_points).
  - reflexivity.
  - reflexivity.
  - lia.
Defined.

Lemma shuffle_from_state `{RS : RandomState} i (x y : list nat) s :
  (shuffle_from i x s).2 = (shuffle_from i y s).2.
Proof.
  revert x y s. induction i as [|i IH]; intros x y s; [done|].
  simpl. destruct (random_interval s (S i)) as [j s1]. apply IH.
Qed.

Lemma select_indices_state `{RS : RandomState} `{AS : !ArgSort bytes_le}
    colors_packed N k s :
  (select_indices colors_packed N k s).2 = (shuffle (Np.arange N) s).2.
Proof. unfold select_indices. by destruct (shuffle (Np.arange N) s). Qed.

(** X8 (what a call takes from the generator): the random state a call
    leaves behind depends only on the state it started from and on the
    number of points: not on the colours, on [k], on the step, on the
    mode, on the sort, and not on whether the call returns or raises. *)
Theorem random_state_by_size `{RS : RandomState} (AS1 AS2 : ArgSort bytes_le)
    (pcd1 pcd2 : loc) (k1 k2 : Z) (q1 q2 : float) (uc1 uc2 : bool)
    (h1 h2 : heap) (s : rng_state) (c1 c2 : PointCloud) :
  h1 !! pcd1 = Some c1 → h2 !! pcd2 = Some c2 →
  length (points c1) = length (points c2) →
  (prism_sampling (AS:=AS1) pcd1 k1 q1 uc1 h1 s).2
  = (prism_sampling (AS:=AS2) pcd2 k2 q2 uc2 h2 s).2.
Proof.
  intros Hc1 Hc2 Hlen.
  assert (∀ (AS : ArgSort bytes_le) pcd k q uc h c, h !! pcd = Some c →
    (prism_sampling (AS:=AS) pcd k q uc h s).2
    = (shuffle (Np.arange (length (points c))) s).2) as Hstate.
  { intros AS pcd k q uc h c Hc. unfold prism_sampling. rewrite Hc.
    destruct (decide (length (points c) = 0%nat)) as [->|Hn]; [done|].
    cbv zeta.
    pose proof (select_indices_state (pack <$> (color_bin uc q <$> colors c))
                  (length (points c)) k s) as Hs.
    destruct (select_indices _ _ k s) as [[final|e] s1']; simpl in Hs; subst s1'.
    - by destruct (gather_cloud c final).
    - done. }
  rewrite (Hstate AS1 _ _ _ _ _ _ Hc1), (Hstate AS2 _ _ _ _ _ _ Hc2), Hlen. done.
Qed.

Lemma random_state_by_size_witness :
  (prism_sampling (RS:=TapeRandom) (AS:=StableArgSort) 1%positive 1 1%float true
     (one_cloud six_points) [3; 1; 4; 1; 5]%nat).2
  = (prism_sampling (RS:=TapeRandom) (AS:=StableArgSort) 1%positive 0 0%float false
       (one_cloud {| points := points six_points; colors := []; normals := [] |})
       [3; 1; 4; 1; 5]%nat).2.
Proof.
  apply (random_state_by_size (RS:=TapeRandom) StableArgSort StableArgSort
           1%positive 1%positive 1 0 1%float 0%float true false
           (one_cloud six_points)
           (one_cloud {| points := points six_points; colors := []; normals := [] |})
           [3; 1; 4; 1; 5]%nat six_points
           {| points := points six_points; colors := []; normals := [] |}).
  - reflexivity.
  - reflexivity.
  - reflexivity.
Defined.

Lemma output_bins_fixed_witness :
  ∃ l out1 out2 s1' s2',
    prism_sampling (RS:=TapeRandom) (AS:=StableArgSort) 1%positive 1 1%float true
      (one_cloud six_points) [3; 1; 4; 1; 5]%nat
    = (Return l, <[l := out1]> (one_cloud six_points), s1')
    ∧ prism_sampling (RS:=TapeRandom) (AS:=StableArgSort) 1%positive 1 1%float true
        (one_cloud six_points) [2; 7; 1; 8; 2]%nat
      = (Return l, <[l := out2]> (one_cloud six_points), s2')
    ∧ color_bin true 1%float <$> colors out1 = color_bin true 1%float <$> colors out2
    ∧ length (points out1) = length (points out2).
Proof.
  apply (output_bins_fixed TapeRandom TapeRandom StableArgSort StableArgSort
           1%positive 1 1%float true (one_cloud six_points)
           [3; 1; 4; 1; 5]%nat [2; 7; 1; 8; 2]%nat six_points).
  - reflexivity.
  - reflexivity.
Defined.

(** ** Steps that are zero, colours that are not numbers *)

Lemma occ_all {K} `{EqDecision K} (κ : K) (l : list K) :
  Forall (λ x, x = κ) l → occ κ l = length l.
Proof.
  unfold occ. induction 1 as [|x l -> _ IH]; [done|].
  rewrite filter_cons, decide_True by done. simpl. by rewrite IH.
Qed.

(** A float that is infinite or not a number. *)
Lemma astype_int32_not_finite (x : float) :
  match Prim2SF x with S754_infinity _ | S754_nan => True | _ => False end →
  F64.astype_int32 (F64.rint x) = F64.INT32_MIN.
Proof.
  unfold F64.rint, F64.astype_int32. intros Hx.
  destruct (Prim2SF x) eqn:Hp; try done; by rewrite Hp.
Qed.

Lemma div_zero_not_finite (x q : float) :
  (q =? 0)%float = true →
  match Prim2SF (x / q) with S754_infinity _ | S754_nan => True | _ => False end.
Proof.
  rewrite FloatAxioms.eqb_spec, div_spec.
  replace (Prim2SF 0) with (S754_zero false) by (by vm_compute).
  destruct (Prim2SF q) as [sq|sq| |sq mq eq]; try (by destruct sq); try done;
    intros _; by destruct (Prim2SF x).
Qed.

Lemma quantize_zero (q : float) (c : vec3) :
  (q =? 0)%float = true →
  quantize q c = (F64.INT32_MIN, F64.INT32_MIN, F64.INT32_MIN).
Proof.
  intros Hq. destruct c as [[x y] z]. unfold quantize.
  by rewrite !astype_int32_not_finite by by apply div_zero_not_finite.
Qed.

(** X9 (a step of zero): with [quantization] zero (of either sign)
    every quotient is infinite or NaN, so every colour falls in the one
    bin (INT32_MIN, INT32_MIN, INT32_MIN).  On a cloud with points and a
    colour for each of them (Open3D's [has_colors]) the call then
    returns, and the output has [min k N] points (none for [k ≤ 0]). *)
Theorem zero_step_single_bin `{RS : RandomState} `{AS : !ArgSort bytes_le}
    (pcd : loc) (k : Z) (q : float) (uc : bool) (h : heap) (s : rng_state)
    (c : PointCloud) :
  h !! pcd = Some c → has_colors c = true → (q =? 0)%float = true →
  (∀ x, color_bin uc q x = (F64.INT32_MIN, F64.INT32_MIN, F64.INT32_MIN))
  ∧ ∃ l out s',
      prism_sampling pcd k q uc h s = (Return l, <[l := out]> h, s')
      ∧ length (points out) = (Z.to_nat k `min` length (points c))%nat.
Proof.
  intros Hc Hcol Hq.
  assert (∀ x, color_bin uc q x = (F64.INT32_MIN, F64.INT32_MIN, F64.INT32_MIN)) as Hbin.
  { intros x. unfold color_bin. by apply quantize_zero. }
  split; [done|].
  destruct (prism_sampling_colored pcd k q uc h s c Hc Hcol)
    as (o & sc & out & Hrun & Ho & Hsc & Hsorted & Hout).
  apply has_colors_length in Hcol as [_ Hlen].
  apply gather_cloud_Return in Hout as (Hps & Hcs & _).
  eexists _, out, _. split; [done|].
  rewrite <-Hlen in Ho.
  pose proof (sampled_bin_count uc q k (colors c) (colors out) o sc
                (F64.INT32_MIN, F64.INT32_MIN, F64.INT32_MIN) Ho Hsc Hsorted Hcs) as Hcount.
  unfold bin_count in Hcount.
  rewrite !occ_all, !length_fmap in Hcount
    by (apply Forall_fmap, Forall_true; intros x; apply Hbin).
  apply take_length in Hps, Hcs. lia.
Qed.

Lemma zero_step_single_bin_witness :
  (∀ x, color_bin true 0%float x = (F64.INT32_MIN, F64.INT32_MIN, F64.INT32_MIN))
  ∧ ∃ l out s',
      prism_sampling (RS:=TapeRandom) 1%positive 2 0%float true (one_cloud six_points)
        [3; 1; 4; 1; 5]%nat
      = (Return l, <[l := out]> (one_cloud six_points), s')
      ∧ length (points out) = (Z.to_nat 2 `min` length (points six_points))%nat.
Proof.
  apply (zero_step_single_bin (RS:=TapeRandom) 1%positive 2 0%float true
           (one_cloud six_points) [3; 1; 4; 1; 5]%nat six_points).
  - reflexivity.
  - reflexivity.
  - reflexivity.
Defined.

Lemma add_nan_l (x y : float) :
  Prim2SF x = S754_nan → Prim2SF (x + y) = S754_nan.
Proof. intros Hx. rewrite add_spec, Hx. done. Qed.

Lemma add_nan_r (x y : float) :
  Prim2SF y = S754_nan → Prim2SF (x + y) = S754_nan.
Proof. intros Hy. rewrite add_spec, Hy. by destruct (Prim2SF x). Qed.

Lemma div_nan_l (x y : float) :
  Prim2SF x = S754_nan → Prim2SF (x / y) = S754_nan.
Proof. intros Hx. rewrite div_spec, Hx. done. Qed.

Lemma div_nan_r (x y : float) :
  Prim2SF y = S754_nan → Prim2SF (x / y) = S754_nan.
Proof. intros Hy. rewrite div_spec, Hy. by destruct (Prim2SF x). Qed.

Lemma mul_nan_l (x y : float) :
  Prim2SF x = S754_nan → Prim2SF (x * y) = S754_nan.
Proof. intros Hx. rewrite mul_spec, Hx. done. Qed.

Lemma astype_int32_nan (x : float) :
  Prim2SF x = S754_nan → F64.astype_int32 (F64.rint x) = F64.INT32_MIN.
Proof. intros Hx. apply astype_int32_not_finite. by rewrite Hx. Qed.

(** X10 (a colour with a NaN): nothing is raised for a colour that has a
    NaN component.  In chromaticity mode the NaN reaches the sum, so all
    three components of the key are INT32_MIN, whatever the other two
    components and the step are; in raw mode only the key component of
    the NaN is INT32_MIN for certain. *)
Theorem nan_colour_bin (q : float) (r g b : float) :
  Prim2SF r = S754_nan ∨ Prim2SF g = S754_nan ∨ Prim2SF b = S754_nan →
  color_bin true q (r, g, b) = (F64.INT32_MIN, F64.INT32_MIN, F64.INT32_MIN)
  ∧ (Prim2SF r = S754_nan → (color_bin false q (r, g, b)).1.1 = F64.INT32_MIN)
  ∧ (Prim2SF g = S754_nan → (color_bin false q (r, g, b)).1.2 = F64.INT32_MIN)
  ∧ (Prim2SF b = S754_nan → (color_bin false q (r, g, b)).2 = F64.INT32_MIN).
Proof.
  intros Hnan. split; [|repeat split].
  - assert (Prim2SF (sum_colors (r, g, b)) = S754_nan) as Hsum.
    { unfold sum_colors. apply add_nan_l.
      destruct Hnan as [Hr|[Hg|Hb]].
      - by apply add_nan_l, add_nan_l.
      - by apply add_nan_l, add_nan_r.
      - by apply add_nan_r. }
    unfold color_bin, colors_to_bin, quantize.
    by rewrite !astype_int32_nan by by apply div_nan_l, mul_nan_l, div_nan_r.
  - intros Hr. unfold color_bin, colors_to_bin, quantize. simpl.
    by apply astype_int32_nan, div_nan_l, mul_nan_l.
  - intros Hg. unfold color_bin, colors_to_bin, quantize. simpl.
    by apply astype_int32_nan, div_nan_l, mul_nan_l.
  - intros Hb. unfold color_bin, colors_to_bin, quantize. simpl.
    by apply astype_int32_nan, div_nan_l, mul_nan_l.
Qed.

Lemma nan_colour_bin_witness :
  color_bin true 1%float (0.5, nan, 0.25)%float
  = (F64.INT32_MIN, F64.INT32_MIN, F64.INT32_MIN)
  ∧ (Prim2SF 0.5 = S754_nan →
     (color_bin false 1%float (0.5, nan, 0.25)%float).1.1 = F64.INT32_MIN)
  ∧ (Prim2SF nan = S754_nan →
     (color_bin false 1%float (0.5, nan, 0.25)%float).1.2 = F64.INT32_MIN)
  ∧ (Prim2SF 0.25 = S754_nan →
     (color_bin false 1%float (0.5, nan, 0.25)%float).2 = F64.INT32_MIN).
Proof.
  apply (nan_colour_bin 1%float 0.5%float nan 0.25%float).
  right. left. reflexivity.
Defined.

(** ** Sampling what has been sampled *)

(** When no bin holds more than [k] colours, the mask keeps every
    position. *)
Lemma mask_keeps_all uc q (k : Z) (cs : list vec3) o sc :
  o ≡ₚ Np.arange (length cs) →
  Np.take (pack <$> (color_bin uc q <$> cs)) o = Some sc →
  Sorted (key_le bytes_le) sc →
  (∀ κ, bin_count uc q κ cs ≤ Z.to_nat k)%nat →
  Np.compress (less_scalar (run_counter sc) k) o = o.
Proof.
  intros Ho Hsc Hsorted Hsmall.
  pose proof (sorted_grouped bytes_le sc Hsorted) as Hg.
  assert (sc ≡ₚ pack <$> (color_bin uc q <$> cs)) as Hperm.
  { eapply take_perm_arange; [|done]. by rewrite !length_fmap. }
  apply compress_all.
  - unfold less_scalar. apply Forall_fmap, Forall_lookup. intros p z Hz. simpl.
    apply bool_decide_eq_true.
    destruct (Forall2_lookup_l _ _ _ _ _ (run_counter_lt_occ sc Hg) Hz) as (y & Hy & Hlt).
    assert (y ∈ pack <$> (color_bin uc q <$> cs)) as Hin.
    { rewrite <-Hperm. by eapply list_elem_of_lookup_2. }
    apply list_elem_of_fmap in Hin as (κ & -> & Hκ).
    rewrite (occ_perm _ _ _ Hperm) in Hlt.
    rewrite (occ_fmap_inj pack in_int32) in Hlt;
      [|by apply list_elem_of_fmap in Hκ as (x & -> & _); apply color_bin_in_int32
       |apply color_bins_in_int32|apply pack_inj].
    specialize (Hsmall κ). unfold bin_count in Hsmall.
    apply occ_pos_elem in Hκ. lia.
  - unfold less_scalar. rewrite length_fmap, run_counter_length by done.
    rewrite (take_length _ _ _ Hsc). done.
Qed.

(** X11 (sampling twice): a second call with the same parameters on the
    cloud a first call returned removes nothing: its output holds the
    points, colours and normals of the first output, reordered. *)
Theorem sampling_twice `{RS : RandomState} `{AS : !ArgSort bytes_le}
    (pcd : loc) (k : Z) (q : float) (uc : bool) (h : heap) (s : rng_state)
    (c : PointCloud) :
  h !! pcd = Some c → has_colors c = true →
  ∃ l out s1 l2 out2 h2 s2,
    prism_sampling pcd k q uc h s = (Return l, <[l := out]> h, s1)
    ∧ prism_sampling l k q uc (<[l := out]> h) s1 = (Return l2, h2, s2)
    ∧ h2 !! l2 = Some out2
    ∧ points out2 ≡ₚ points out
    ∧ colors out2 ≡ₚ colors out
    ∧ normals out2 ≡ₚ normals out.
Proof.
  intros Hc Hcol.
  destruct (prism_sampling_colored pcd k q uc h s c Hc Hcol)
    as (o & sc & out & Hrun & Ho & Hsc & Hsorted & Hout).
  pose proof Hcol as [Hne Hlen]%has_colors_length.
  apply gather_cloud_Return in Hout as (Hps & Hcs & Hns).
  assert (length (colors out) = length (points out)) as Hlen'.
  { by rewrite (take_length _ _ _ Hps), (take_length _ _ _ Hcs). }
  set (l := fresh (dom h)) in *. set (h1 := <[l := out]> h).
  assert (h1 !! l = Some out) as Hl by apply lookup_insert_eq.
  eexists l, out, _. 
  destruct (decide (length (points out) = 0%nat)) as [Hz|Hnz].
  { exists l, out, h1, (shuffle (Np.arange (length (points c))) s).2.
    split; [done|]. split; [|done].
    unfold prism_sampling. fold h1. rewrite Hl. by rewrite decide_True. }
  assert (has_colors out = true) as Hcol'.
  { unfold has_colors. apply bool_decide_eq_true. split; [lia|done]. }
  destruct (prism_sampling_colored l k q uc h1 (shuffle (Np.arange (length (points c))) s).2
              out Hl Hcol')
    as (o2 & sc2 & out2 & Hrun2 & Ho2 & Hsc2 & Hsorted2 & Hout2).
  rewrite (mask_keeps_all uc q k (colors out)) in Hout2;
    [|by rewrite Hlen'|done|done|]; last first.
  { intros κ. rewrite <-Hlen in Ho.
    rewrite (sampled_bin_count uc q k (colors c) (colors out) o sc κ Ho Hsc Hsorted Hcs).
    lia. }
  apply gather_cloud_Return in Hout2 as (Hps2 & Hcs2 & Hns2).
  eexists _, out2, _, _. split; [done|]. split; [done|].
  split; [apply lookup_insert_eq|]. split; [|split].
  - by eapply take_perm_arange.
  - eapply take_perm_arange; [|done]. by rewrite Hlen'.
  - destruct (has_normals out) eqn:Hn.
    + eapply take_perm_arange; [|done].
      unfold has_normals in Hn. apply bool_decide_eq_true in Hn as [_ ->]. done.
    + rewrite Hns2. destruct (has_normals c) eqn:Hnc.
      * exfalso. apply take_length in Hns, Hps.
        unfold has_normals in Hn. apply bool_decide_eq_false in Hn. apply Hn. lia.
      * by rewrite Hns.
Qed.

Lemma sampling_twice_witness :
  ∃ l out s1 l2 out2 h2 s2,
    prism_sampling (RS:=TapeRandom) 1%positive 2 1%float true (one_cloud six_points)
      [3; 1; 4; 1; 5; 9; 2; 6]%nat
    = (Return l, <[l := out]> (one_cloud six_points), s1)
    ∧ prism_sampling (RS:=TapeRandom) l 2 1%float true
        (<[l := out]> (one_cloud six_points)) s1
      = (Return l2, h2, s2)
    ∧ h2 !! l2 = Some out2
    ∧ points out2 ≡ₚ points out
    ∧ colors out2 ≡ₚ colors out
    ∧ normals out2 ≡ₚ normals out.
Proof.
  apply (sampling_twice (RS:=TapeRandom) 1%positive 2 1%float true
           (one_cloud six_points) [3; 1; 4; 1; 5; 9; 2; 6]%nat six_points).
  - reflexivity.
  - reflexivity.
Defined.

(** ** A negative step *)

(** The sign of a rounded result is the sign given; nothing else of the
    result depends on it. *)
Lemma binary_round_aux_opp s m e l :
  binary_round_aux prec emax (negb s) m e l = SFopp (binary_round_aux prec emax s m e l).
Proof.
  unfold binary_round_aux.
  destruct (shr_fexp prec emax m e l) as [mrs1 e1].
  destruct (shr_fexp prec emax _ e1 loc_Exact) as [mrs2 e2].
  destruct (shr_m mrs2); [done| |done]. by destruct (e2 <=? emax - prec).
Qed.

Lemma binary_round_opp s m e :
  binary_round prec emax (negb s) m e = SFopp (binary_round prec emax s m e).
Proof.
  unfold binary_round. destruct (shl_align _ _ _) as [mz ez].
  apply binary_round_aux_opp.
Qed.

Lemma valid_binary_opp x : valid_binary (SFopp x) = valid_binary x.
Proof. by destruct x. Qed.

Lemma SF64div_opp_r x y : SF64div x (SFopp y) = SFopp (SF64div x y).
Proof.
  destruct x as [sx|sx| |sx mx ex], y as [sy|sy| |sy my ey]; simpl;
    try done; try (by destruct sx, sy).
  unfold SF64div, SFdiv. simpl.
  destruct (SFdiv_core_binary prec emax (Zpos mx) ex (Zpos my) ey) as [[mz ez] lz].
  rewrite <-binary_round_aux_opp. f_equal. by destruct sx, sy.
Qed.

Lemma div_opp_r (x q : float) : (x / - q)%float = (- (x / q))%float.
Proof.
  apply Prim2SF_inj. rewrite opp_spec, !div_spec, opp_spec. apply SF64div_opp_r.
Qed.

(** *** The mantissa of a float64 *)

Lemma digits2_size (p : positive) : digits2_pos p = Pos.size p.
Proof. induction p as [p IH|p IH|]; simpl; by rewrite ?IH. Qed.

Lemma valid_mantissa s m e :
  valid_binary (S754_finite s m e) = true →
  Zpos m < 2 ^ 53 ∧ e ≤ emax - prec ∧ (0 ≤ e → digits2_pos m = 53%positive).
Proof.
  unfold SpecFloat.valid_binary, bounded, canonical_mantissa.
  intros [Hc He]%andb_prop. apply Z.eqb_eq in Hc. apply Z.leb_le in He.
  unfold fexp, SpecFloat.emin, prec, emax in *.
  assert (Zpos (digits2_pos m) ≤ 53) as Hd by lia.
  split; [|split; [done|lia]].
  pose proof (Pos.size_gt m) as Hgt. rewrite <-digits2_size in Hgt.
  assert (Zpos m < 2 ^ Zpos (digits2_pos m)) as Hlt.
  { rewrite <-Pos2Z.inj_pow. lia. }
  eapply Z.lt_le_trans; [done|]. apply Z.pow_le_mono_r; lia.
Qed.

(** *** Integers below [2^63] are rounded to valid floats *)

Lemma valid_normalize_small (r : Z) (s : bool) :
  0 ≤ r < 2 ^ 63 →
  valid_binary (binary_normalize prec emax (cond_Zopp s r) 0 s) = true.
Proof.
  intros Hr.
  assert (valid_binary (binary_normalize prec emax r 0 false) = true) as Hv.
  { replace r with (Uint63.to_Z (Uint63.of_Z r)).
    - rewrite <-of_uint63_spec. apply Prim2SF_valid.
    - rewrite Uint63.of_Z_spec. apply Z.mod_small. done. }
  destruct r as [|r|r]; [by destruct s| |lia].
  destruct s; simpl in *; [|done].
  change true with (negb false). by rewrite binary_round_opp, valid_binary_opp.
Qed.

(** *** Floats without a fractional part *)

Lemma iter_xO_pow (m p : positive) : Zpos (Pos.iter xO m p) = Zpos m * 2 ^ Zpos p.
Proof.
  induction p as [|p IH] using Pos.peano_ind.
  - simpl. lia.
  - rewrite Pos.iter_succ, Pos2Z.inj_xO, IH, Pos2Z.inj_succ, Z.pow_succ_r by lia. lia.
Qed.

Lemma digits2_iter_xO (m p : positive) :
  digits2_pos (Pos.iter xO m p) = (digits2_pos m + p)%positive.
Proof.
  induction p as [|p IH] using Pos.peano_ind.
  - simpl. lia.
  - rewrite Pos.iter_succ. simpl. rewrite IH. lia.
Qed.

Lemma shr_iter_xO (m p : positive) :
  SpecFloat.iter_pos shr_1 p
    {| shr_m := Zpos (Pos.iter xO m p); shr_r := false; shr_s := false |}
  = {| shr_m := Zpos m; shr_r := false; shr_s := false |}.
Proof.
  rewrite iter_pos_nat, Pos2Nat.inj_iter.
  induction (Pos.to_nat p) as [|n IH]; [done|].
  rewrite Nat.iter_succ_r. simpl. apply IH.
Qed.

(** A float64 whose exponent is not negative is an integer, and rounding
    that integer gives the float back. *)
Lemma binary_round_integral s m e :
  valid_binary (S754_finite s m e) = true → 0 ≤ e →
  binary_normalize prec emax (cond_Zopp s (Zpos m * 2 ^ e)) 0 s = S754_finite s m e.
Proof.
  intros (_ & Hmax & Hd)%valid_mantissa He. specialize (Hd He).
  assert (∀ mz ez, digits2_pos mz = 53%positive → ez ≤ emax - prec → 0 ≤ ez →
    binary_round_aux prec emax s (Zpos mz) ez loc_Exact = S754_finite s mz ez) as Haux.
  { intros mz ez Hdz Hez1 Hez0. unfold binary_round_aux, shr_fexp, shr. simpl Zdigits2.
    rewrite Hdz.
    replace (fexp prec emax (53 + ez) - ez) with 0
      by (unfold fexp, SpecFloat.emin, prec, emax; lia).
    simpl. rewrite Hdz.
    replace (fexp prec emax (53 + ez) - ez) with 0
      by (unfold fexp, SpecFloat.emin, prec, emax; lia).
    simpl. by rewrite (proj2 (Z.leb_le _ _) Hez1). }
  destruct e as [|p|p]; [| |lia].
  - rewrite Z.mul_1_r.
    assert (binary_round prec emax s m 0 = S754_finite s m 0) as Hr.
    { unfold binary_round, shl_align. rewrite Hd.
      replace (fexp prec emax (53 + 0) - 0) with 0 by done.
      by apply Haux. }
    by destruct s.
  - rewrite <-iter_xO_pow.
    assert (binary_round prec emax s (Pos.iter xO m p) 0 = S754_finite s m (Zpos p)) as Hr.
    { unfold binary_round, shl_align. rewrite digits2_iter_xO, Hd.
      replace (fexp prec emax (Zpos (53 + p) + 0) - 0) with (Zpos p)
        by (unfold fexp, SpecFloat.emin, prec, emax; lia).
      unfold binary_round_aux, shr_fexp, shr. simpl Zdigits2.
      rewrite digits2_iter_xO, Hd.
      replace (fexp prec emax (Zpos (53 + p) + 0) - 0) with (Zpos p)
        by (unfold fexp, SpecFloat.emin, prec, emax; lia).
      cbn [shr_record_of_loc]. rewrite shr_iter_xO.
      cbn [shr_m loc_of_shr_record round_nearest_even Zdigits2]. rewrite Hd.
      replace (fexp prec emax (53 + (0 + Zpos p)) - (0 + Zpos p)) with 0
        by (unfold fexp, SpecFloat.emin, prec, emax; lia).
      cbn [shr_m]. rewrite Z.add_0_l. by rewrite (proj2 (Z.leb_le _ _) Hmax). }
    by destruct s.
Qed.

Lemma round_half_even_bounds (m d : positive) :
  0 ≤ F64.round_half_even m (Zneg d) ≤ Zpos m.
Proof.
  unfold F64.round_half_even.
  assert (2 ≤ 2 ^ Zpos d) as Hp.
  { change 2 with (2 ^ 1) at 1. apply Z.pow_le_mono_r; lia. }
  pose proof (Z.div_mod (Zpos m) (2 ^ Zpos d)) as Hdm.
  pose proof (Z.mod_pos_bound (Zpos m) (2 ^ Zpos d)) as Hmod.
  assert (0 ≤ Zpos m / 2 ^ Zpos d) as Hq by (apply Z.div_pos; lia).
  assert (Zpos m / 2 ^ Zpos d + 1 ≤ Zpos m) as Hq1 by nia.
  destruct (_ ?= _); [destruct (Z.even _)| |]; lia.
Qed.

(** Whatever the float, the integer [rint] rounds to is turned into a
    valid float. *)
Lemma rint_valid s m e :
  valid_binary (S754_finite s m e) = true →
  valid_binary
    (binary_normalize prec emax (cond_Zopp s (F64.round_half_even m e)) 0 s) = true.
Proof.
  intros Hv. destruct (decide (0 ≤ e)) as [He|He].
  - replace (F64.round_half_even m e) with (Zpos m * 2 ^ e) by (by destruct e).
    by rewrite binary_round_integral.
  - destruct e as [|p|d]; [lia|lia|].
    apply valid_normalize_small.
    pose proof (round_half_even_bounds m d).
    apply valid_mantissa in Hv as [Hm _]. lia.
Qed.

Lemma SFopp_involutive x : SFopp (SFopp x) = x.
Proof. destruct x; simpl; by rewrite ?negb_involutive. Qed.

Lemma rint_opp (x : float) : F64.rint (- x) = (- F64.rint x)%float.
Proof.
  unfold F64.rint. rewrite opp_spec.
  pose proof (Prim2SF_valid x) as Hv.
  destruct (Prim2SF x) as [s|s| |s m e] eqn:Hx; simpl; try done.
  apply Prim2SF_inj.
  pose proof (rint_valid s m e Hv) as Hr.
  rewrite opp_spec, (Prim2SF_SF2Prim _ Hr).
  assert (binary_normalize prec emax (cond_Zopp (negb s) (F64.round_half_even m e)) 0
            (negb s)
          = SFopp (binary_normalize prec emax (cond_Zopp s (F64.round_half_even m e)) 0 s))
    as Hopp.
  { assert (0 ≤ F64.round_half_even m e) as Hpos.
    { destruct e as [|p|d]; [simpl; lia|simpl; lia|apply round_half_even_bounds]. }
    destruct (F64.round_half_even m e) as [|r|r]; [by destruct s| |lia].
    destruct s; simpl.
    - change (binary_round prec emax true r 0)
        with (binary_round prec emax (negb false) r 0).
      by rewrite binary_round_opp, SFopp_involutive.
    - change true with (negb false). by rewrite binary_round_opp. }
  rewrite Hopp. apply Prim2SF_SF2Prim. by rewrite valid_binary_opp.
Qed.

(** *** The keys of a negative step *)

Lemma truncate_nonneg (m : positive) (e : Z) : 0 ≤ F64.truncate m e.
Proof.
  unfold F64.truncate. destruct e as [|p|d]; [lia| |].
  - apply Z.mul_nonneg_nonneg; [lia|]. apply Z.pow_nonneg. lia.
  - apply Z.div_pos; [lia|]. apply Z.pow_pos_nonneg; lia.
Qed.

Lemma astype_int32_opp (x : float) :
  F64.astype_int32 (- x) = neg32 (F64.astype_int32 x).
Proof.
  unfold F64.astype_int32, neg32. rewrite opp_spec.
  destruct (Prim2SF x) as [s|s| |s m e]; simpl; try done.
  pose proof (truncate_nonneg m e) as Ht.
  unfold F64.INT32_MIN, F64.INT32_MAX in *.
  destruct s; simpl; repeat case_bool_decide; lia.
Qed.

Lemma neg32_involutive (z : Z) :
  F64.INT32_MIN ≤ z ≤ F64.INT32_MAX → neg32 (neg32 z) = z.
Proof. unfold neg32, F64.INT32_MIN, F64.INT32_MAX. repeat case_bool_decide; lia. Qed.

Lemma neg32_range (z : Z) :
  F64.INT32_MIN ≤ z ≤ F64.INT32_MAX → F64.INT32_MIN ≤ neg32 z ≤ F64.INT32_MAX.
Proof. unfold neg32, F64.INT32_MIN, F64.INT32_MAX. case_bool_decide; lia. Qed.

Lemma neg_key_involutive (c : key3) : in_int32 c → neg_key (neg_key c) = c.
Proof.
  destruct c as [[x y] z]. intros (Hx & Hy & Hz). simpl.
  by rewrite !neg32_involutive.
Qed.

Lemma neg_key_in_int32 (c : key3) : in_int32 c → in_int32 (neg_key c).
Proof.
  destruct c as [[x y] z]. intros (Hx & Hy & Hz). simpl.
  auto using neg32_range.
Qed.

Lemma neg_key_inj (c1 c2 : key3) :
  in_int32 c1 → in_int32 c2 → neg_key c1 = neg_key c2 → c1 = c2.
Proof.
  intros H1 H2 H. by rewrite <-(neg_key_involutive c1), H, neg_key_involutive.
Qed.

Lemma color_bin_opp (uc : bool) (q : float) (c : vec3) :
  color_bin uc (- q) c = neg_key (color_bin uc q c).
Proof.
  unfold color_bin, quantize. destruct (colors_to_bin uc c) as [[x y] z]. simpl.
  by rewrite !div_opp_r, !rint_opp, !astype_int32_opp.
Qed.

Lemma bin_count_opp (uc : bool) (q : float) (κ : key3) (l : list vec3) :
  in_int32 κ → bin_count uc (- q) (neg_key κ) l = bin_count uc q κ l.
Proof.
  intros Hκ. unfold bin_count.
  rewrite (list_fmap_ext (color_bin uc (- q)) (neg_key ∘ color_bin uc q) l)
    by (intros; apply color_bin_opp).
  rewrite list_fmap_compose.
  apply (occ_fmap_inj neg_key in_int32);
    [done|apply color_bins_in_int32|apply neg_key_inj].
Qed.

(** Two lists in which every key occurs equally often have the same
    length. *)
Lemma occ_eq_length {K} `{EqDecision K} (l1 l2 : list K) :
  (∀ κ, occ κ l1 = occ κ l2) → length l1 = length l2.
Proof.
  revert l2. induction l1 as [|x l1 IH]; intros l2 Hocc.
  - destruct l2 as [|y l2]; [done|]. specialize (Hocc y).
    unfold occ in Hocc. rewrite filter_cons, decide_True in Hocc by done. done.
  - assert (x ∈ l2) as Hx.
    { apply occ_pos_elem. rewrite <-Hocc. unfold occ.
      rewrite filter_cons, decide_True by done. simpl. lia. }
    apply list_elem_of_split in Hx as (l2a & l2b & ->).
    rewrite length_app. simpl. rewrite (IH (l2a ++ l2b)); [rewrite length_app; lia|].
    intros κ. specialize (Hocc κ). rewrite occ_app in Hocc |- *.
    unfold occ in Hocc |- *. rewrite !filter_cons in Hocc.
    destruct (decide (x = κ)); simpl in Hocc; rewrite ?length_app in *; simpl in *; lia.
Qed.

(** X12 (a negative step): the key of a colour at step [-q] is the key
    at step [q] with its three components negated in int32, so two
    colours share a bin at one step exactly when they do at the other.
    On a cloud with points and a colour for each of them (Open3D's
    [has_colors]) both calls return, and the sampler keeps as many
    points of every bin, and as many points in all, at either step. *)
Theorem negative_step_mirrors `{RS : RandomState} `{AS : !ArgSort bytes_le}
    (pcd : loc) (k : Z) (q : float) (uc : bool) (h : heap) (s s' : rng_state)
    (c : PointCloud) :
  h !! pcd = Some c → has_colors c = true →
  (∀ x, color_bin uc (- q) x = neg_key (color_bin uc q x))
  ∧ (∀ x y, color_bin uc (- q) x = color_bin uc (- q) y
            ↔ color_bin uc q x = color_bin uc q y)
  ∧ ∃ l out out' s1 s1',
      prism_sampling pcd k q uc h s = (Return l, <[l := out]> h, s1)
      ∧ prism_sampling pcd k (- q) uc h s' = (Return l, <[l := out']> h, s1')
      ∧ (∀ x, bin_count uc (- q) (color_bin uc (- q) x) (colors out')
              = bin_count uc q (color_bin uc q x) (colors out))
      ∧ length (points out') = length (points out).
Proof.
  intros Hc Hcol. split; [apply color_bin_opp|]. split.
  { intros x y. rewrite !color_bin_opp. split; [|by intros ->].
    apply neg_key_inj; apply color_bin_in_int32. }
  destruct (prism_sampling_colored pcd k q uc h s c Hc Hcol)
    as (o & sc & out & Hrun & Ho & Hsc & Hsorted & Hout).
  destruct (prism_sampling_colored pcd k (- q) uc h s' c Hc Hcol)
    as (o' & sc' & out' & Hrun' & Ho' & Hsc' & Hsorted' & Hout').
  apply has_colors_length in Hcol as [_ Hlen].
  apply gather_cloud_Return in Hout as (Hps & Hcs & _).
  apply gather_cloud_Return in Hout' as (Hps' & Hcs' & _).
  rewrite <-Hlen in Ho, Ho'.
  assert (∀ κ, in_int32 κ →
               bin_count uc (- q) (neg_key κ) (colors out')
               = bin_count uc q κ (colors out)) as Hbins.
  { intros κ Hκ.
    rewrite (sampled_bin_count uc (- q) k (colors c) (colors out') o' sc' _
               Ho' Hsc' Hsorted' Hcs').
    rewrite (sampled_bin_count uc q k (colors c) (colors out) o sc _ Ho Hsc Hsorted Hcs).
    by rewrite bin_count_opp. }
  eexists _, out, out', _, _. split; [done|]. split; [done|]. split.
  - intros x. rewrite color_bin_opp. apply Hbins, color_bin_in_int32.
  - apply take_length in Hps as Hl1. apply take_length in Hcs as Hl2.
    apply take_length in Hps' as Hl1'. apply take_length in Hcs' as Hl2'.
    rewrite Hl1, Hl1', <-Hl2, <-Hl2'.
    rewrite <-(length_fmap (color_bin uc (- q)) (colors out')).
    rewrite <-(length_fmap (color_bin uc (- q)) (colors out)).
    apply occ_eq_length. intros κ.
    destruct (decide (κ ∈ color_bin uc (- q) <$> colors out')) as [Hin|Hout'];
      [|destruct (decide (κ ∈ color_bin uc (- q) <$> colors out)) as [Hin|Hout]].
    + apply list_elem_of_fmap in Hin as (x & -> & _).
      change (bin_count uc (- q) (color_bin uc (- q) x) (colors out')
              = bin_count uc (- q) (color_bin uc (- q) x) (colors out)).
      rewrite color_bin_opp. rewrite (Hbins _ (color_bin_in_int32 uc q x)).
      symmetry. apply bin_count_opp, color_bin_in_int32.
    + apply list_elem_of_fmap in Hin as (x & -> & _).
      change (bin_count uc (- q) (color_bin uc (- q) x) (colors out')
              = bin_count uc (- q) (color_bin uc (- q) x) (colors out)).
      rewrite color_bin_opp. rewrite (Hbins _ (color_bin_in_int32 uc q x)).
      symmetry. apply bin_count_opp, color_bin_in_int32.
    + by rewrite !occ_not_elem.
Qed.

Lemma negative_step_mirrors_witness :
  (∀ x, color_bin true (- 1) x = neg_key (color_bin true 1%float x))
  ∧ (∀ x y, color_bin true (- 1) x = color_bin true (- 1) y
            ↔ color_bin true 1%float x = color_bin true 1%float y)
  ∧ ∃ l out out' s1 s1',
      prism_sampling (RS:=TapeRandom) 1%positive 1 1%float true (one_cloud six_points)
        [3; 1; 4; 1; 5]%nat
      = (Return l, <[l := out]> (one_cloud six_points), s1)
      ∧ prism_sampling (RS:=TapeRandom) 1%positive 1 (- 1) true (one_cloud six_points)
          [2; 7; 1; 8; 2]%nat
        = (Return l, <[l := out']> (one_cloud six_points), s1')
      ∧ (∀ x, bin_count true (- 1) (color_bin true (- 1) x) (colors out')
              = bin_count true 1%float (color_bin true 1%float x) (colors out))
      ∧ length (points out') = length (points out).
Proof.
  apply (negative_step_mirrors (RS:=TapeRandom) 1%positive 1 1%float true
           (one_cloud six_points) [3; 1; 4; 1; 5]%nat [2; 7; 1; 8; 2]%nat six_points).
  - reflexivity.
  - reflexivity.
Defined.

(** * The program around the sampler *)

(** ** The outlier filter's selection *)

Lemma compress_length_eq {A B} (m : list bool) (a : list A) (b : list B) :
  length a = length b → length (Np.compress m a) = length (Np.compress m b).
Proof.
  revert a b. induction m as [|[] m IH]; intros [|x a] [|y b] Hlen;
    simplify_eq/=; auto.
Qed.

Lemma compress_length_le {A} (m : list bool) (a : list A) :
  (length (Np.compress m a) ≤ length a)%nat.
Proof. apply sublist_length, compress_sublist. Qed.

Lemma take_compress_arange {A} (m : list bool) (a : list A) :
  Np.take a (Np.compress m (Np.arange (length a))) = Some (Np.compress m a).
Proof. apply take_compress, take_arange. Qed.

Lemma take_NoDup {A} (a b : list A) idx :
  Np.take a idx = Some b → NoDup a → NoDup idx → NoDup b.
Proof.
  intros Hb Ha Hidx. apply NoDup_alt. intros p1 p2 x H1 H2.
  apply take_Some in Hb.
  destruct (Forall2_lookup_r _ _ _ _ _ Hb H1) as (i1 & Hi1 & Hx1).
  destruct (Forall2_lookup_r _ _ _ _ _ Hb H2) as (i2 & Hi2 & Hx2).
  pose proof (NoDup_lookup _ _ _ _ Ha Hx1 Hx2) as ->.
  by eapply NoDup_lookup.
Qed.

(** The cloud that [remove_statistical_outlier] returns is the gather of
    its input along increasing indices, and has a colour for each point
    when the input has. *)
Lemma select_by_index_spec (c : PointCloud) (indices : list nat) :
  has_colors c = true →
  ∃ sel,
    NoDup sel
    ∧ Np.take (points c) sel = Some (points (select_by_index c indices))
    ∧ Np.take (colors c) sel = Some (colors (select_by_index c indices))
    ∧ length (colors (select_by_index c indices))
      = length (points (select_by_index c indices)).
Proof.
  intros Hcol. pose proof Hcol as [_ Hlen]%has_colors_length.
  unfold select_by_index. rewrite Hcol. cbn [points colors].
  set (mask := _ <$> Np.arange (length (points c))).
  exists (Np.compress mask (Np.arange (length (points c)))).
  split; [|split; [|split]].
  - eapply sublist_NoDup; [|apply compress_sublist]. apply NoDup_seq.
  - apply take_compress_arange.
  - rewrite <-Hlen. apply take_compress_arange.
  - by apply compress_length_eq.
Qed.

Section ProgramFacts.
Context `{RS : RandomState} `{AS : !ArgSort bytes_le} `{HO : Host}.

(** What the sampler makes of the filtered cloud: a cloud at a location
    of the new heap, gathered from the filtered one along distinct
    indices, with every bin cut to [k]. *)
Lemma sample_filtered (clean : PointCloud) (clean_pcd : loc) (k : Z) (q : float)
    (uc : bool) (h : heap) (s : rng_state) :
  h !! clean_pcd = Some clean →
  length (colors clean) = length (points clean) →
  ∃ l out h' final,
    prism_sampling clean_pcd k q uc h s
    = (Return l, h', (shuffle (Np.arange (length (points clean))) s).2)
    ∧ h' !! l = Some out
    ∧ (∀ l0, is_Some (h !! l0) → h' !! l0 = h !! l0)
    ∧ NoDup final
    ∧ Np.take (points clean) final = Some (points out)
    ∧ Np.take (colors clean) final = Some (colors out)
    ∧ ∀ κ, bin_count uc q κ (colors out)
           = (Z.to_nat k `min` bin_count uc q κ (colors clean))%nat.
Proof.
  intros Hc Hlen.
  destruct (decide (length (points clean) = 0%nat)) as [Hz|Hnz].
  - exists clean_pcd, clean, h, [].
    assert (points clean = []) as Hp by by apply nil_length_inv.
    assert (colors clean = []) as Hcs by (apply nil_length_inv; lia).
    split; [|split; [done|split; [done|split; [constructor|]]]].
    + unfold prism_sampling. rewrite Hc, decide_True by done. by rewrite Hz.
    + rewrite Hp, Hcs. split; [done|]. split; [done|].
      intros κ. unfold bin_count, occ. simpl. lia.
  - assert (has_colors clean = true) as Hcol.
    { unfold has_colors. apply bool_decide_eq_true. split; [lia|done]. }
    destruct (prism_sampling_colored clean_pcd k q uc h s clean Hc Hcol)
      as (o & sc & out & Hrun & Ho & Hsc & Hsorted & Hout).
    apply gather_cloud_Return in Hout as (Hps & Hcs & _).
    exists (fresh (dom h)), out, (<[fresh (dom h) := out]> h),
      (Np.compress (less_scalar (run_counter sc) k) o).
    split; [done|]. split; [apply lookup_insert_eq|]. split; [|split; [|split; [done|split; [done|]]]].
    + intros l0 Hl0. apply lookup_insert_ne. intros <-.
      apply elem_of_dom in Hl0. by apply is_fresh in Hl0.
    + by apply (compress_arange_NoDup _ _ (length (points clean))).
    + intros κ. rewrite <-Hlen in Ho.
      by apply (sampled_bin_count uc q k (colors clean) (colors out) o sc).
Qed.
End ProgramFacts.

Lemma NoDup_range_length (idx : list nat) (N : nat) :
  NoDup idx → Forall (λ i, i < N)%nat idx → (length idx ≤ N)%nat.
Proof.
  intros Hnd Hr. transitivity (length (seq 0 N)); [|by rewrite length_seq].
  apply submseteq_length.
  apply NoDup_submseteq; [done|]. intros i Hi. apply elem_of_seq.
  rewrite Forall_forall in Hr. specialize (Hr i Hi). lia.
Qed.

Section ProcessFile.
Context `{RS : RandomState} `{AS : !ArgSort bytes_le} `{HO : Host}.

Lemma fresh_frame (h : heap) (c : PointCloud) (l0 : loc) :
  is_Some (h !! l0) → <[fresh (dom h) := c]> h !! l0 = h !! l0.
Proof.
  intros Hl0. apply lookup_insert_ne. intros <-.
  apply elem_of_dom in Hl0. by apply is_fresh in Hl0.
Qed.

(** [process_file] in full, by the colours of the cloud it reads. *)
Lemma process_file_spec (input_path output_path : string) (k : Z) (q : float)
    (uc : bool) (σ : state) :
  let t0 := (time_time (outside σ)).1 in
  let w := (time_time (outside σ)).2 in
  let c := read_point_cloud input_path w in
  let clean := select_by_index c (statistical_inliers c 100 2%float) in
  if has_colors c then
    ∃ out idx h',
      process_file input_path output_path k q uc σ
      = (Return (),
         {| objects := h';
            generator := (shuffle (Np.arange (length (points clean))) (generator σ)).2;
            outside := (time_time (write_point_cloud output_path out w).2).2;
            stdout := stdout σ ++
              [Reduced (basename input_path) (if uc then "Chroma" else "RGB")%string q k
                 ((time_time (write_point_cloud output_path out w).2).1 - t0)%float
                 (length (points c)) (length (points out))] |})
      ∧ (∀ l0, is_Some (objects σ !! l0) → h' !! l0 = objects σ !! l0)
      ∧ NoDup idx
      ∧ Np.take (points c) idx = Some (points out)
      ∧ Np.take (colors c) idx = Some (colors out)
      ∧ ∀ κ, bin_count uc q κ (colors out)
             = (Z.to_nat k `min` bin_count uc q κ (colors clean))%nat
  else
    process_file input_path output_path k q uc σ
    = (Return (),
       {| objects := <[fresh (dom (objects σ)) := c]> (objects σ);
          generator := generator σ; outside := w;
          stdout := stdout σ ++ [Skipping (basename input_path)] |}).
Proof.
  cbv zeta. unfold process_file, load_point_cloud.
  destruct (time_time (outside σ)) as [t0 w] eqn:Ht. cbn [fst snd].
  set (c := read_point_cloud input_path w).
  destruct (has_colors c) eqn:Hcol; cbn [negb]; [|done].
  set (clean := select_by_index c (statistical_inliers c 100 2%float)).
  set (h1 := <[fresh (dom (objects σ)) := c]> (objects σ)).
  set (h2 := <[fresh (dom h1) := clean]> h1).
  destruct (select_by_index_spec c (statistical_inliers c 100 2%float) Hcol)
    as (sel & Hsel & Hps & Hcs & Hlen). fold clean in Hps, Hcs, Hlen.
  destruct (sample_filtered clean (fresh (dom h1)) k q uc h2 (generator σ))
    as (l & out & h3 & final & Hrun & Hl & Hframe & Hfinal & Hops & Hocs & Hbins);
    [apply lookup_insert_eq|done|].
  rewrite Hrun, Hl.
  destruct (take_in_range sel final) as [idx Hidx].
  { rewrite <-(take_length _ _ _ Hps). by eapply take_Some_range. }
  exists out, idx, h3. split.
  { destruct (write_point_cloud output_path out w) as [ok w1]. cbn [snd].
    by destruct (time_time w1) as [t1 w2]. } split; [|split; [|split; [|split; [|done]]]].
  - intros l0 Hl0. rewrite Hframe.
    + unfold h2, h1. rewrite !fresh_frame; [done|done|].
      rewrite fresh_frame; done.
    + unfold h2, h1. rewrite !fresh_frame; [done|done|].
      rewrite fresh_frame; done.
  - by eapply take_NoDup.
  - by rewrite <-(take_compose _ _ _ _ _ Hps Hidx).
  - by rewrite <-(take_compose _ _ _ _ _ Hcs Hidx).
Qed.

(** Whatever the file holds, [process_file] returns, with one line
    printed. *)
Lemma process_file_Return (input_path output_path : string) (k : Z) (q : float)
    (uc : bool) (σ : state) :
  ∃ σ' line,
    process_file input_path output_path k q uc σ = (Return (), σ')
    ∧ stdout σ' = stdout σ ++ [line]
    ∧ (line = Skipping (basename input_path)
       ∨ ∃ tag d n m, line = Reduced (basename input_path) tag q k d n m ∧ (m ≤ n)%nat).
Proof.
  pose proof (process_file_spec input_path output_path k q uc σ) as Hspec.
  cbv zeta in Hspec.
  destruct (has_colors _) eqn:Hcol.
  - destruct Hspec as (out & idx & h' & -> & _ & Hidx & Hps & _).
    eexists _, _. split; [done|]. split; [done|]. right.
    eexists _, _, _, _. split; [done|].
    rewrite (take_length _ _ _ Hps).
    apply NoDup_range_length; [done|]. by eapply take_Some_range.
  - rewrite Hspec. eexists _, _. split; [done|]. split; [done|]. by left.
Qed.
End ProcessFile.

(** ** One file *)



(** X14 (a file without colours is skipped): when the cloud read has no
    colours, the call prints the one warning line and returns: nothing
    is written (the world is as the first clock reading left it) and the
    random generator is not advanced. *)
Theorem colourless_file_skipped `{RS : RandomState} `{AS : !ArgSort bytes_le} `{HO : Host}
    (input_path output_path : string) (k : Z) (q : float) (uc : bool) (σ : state) :
  has_colors (read_point_cloud input_path (time_time (outside σ)).2) = false →
  ∃ σ',
    process_file input_path output_path k q uc σ = (Return (), σ')
    ∧ outside σ' = (time_time (outside σ)).2
    ∧ generator σ' = generator σ
    ∧ stdout σ' = stdout σ ++ [Skipping (basename input_path)].
Proof.
  intros Hcol.
  pose proof (process_file_spec input_path output_path k q uc σ) as Hspec.
  cbv zeta in Hspec. rewrite Hcol in Hspec. rewrite Hspec. by eexists.
Qed.

Lemma colourless_file_skipped_witness :
  ∃ σ',
    process_file (RS:=TapeRandom) (AS:=StableArgSort) (HO:=DiskHost)
      "scans/bare.ply" "bare.ply" 1 1%float true start_state = (Return (), σ')
    ∧ outside σ' = (time_time (Host:=DiskHost) (outside start_state)).2
    ∧ generator σ' = generator start_state
    ∧ stdout σ'
      = stdout start_state ++ [Skipping (basename (Host:=DiskHost) "scans/bare.ply")].
Proof.
  apply (colourless_file_skipped (RS:=TapeRandom) (AS:=StableArgSort) (HO:=DiskHost)
           "scans/bare.ply" "bare.ply" 1 1%float true start_state).
  reflexivity.
Defined.



(** With [k = 0] the cloud handed to the writer has no points; the
    writer of [DiskHost], as Open3D's, then makes no file and returns
    false, and the report line is printed all the same. *)
Lemma report_without_file :
  let σ' := (process_file (RS:=TapeRandom) (AS:=StableArgSort) (HO:=DiskHost)
               "scans/six.ply" "six.ply" 0 1%float true start_state).2 in
  stdout σ' = [Reduced "six.ply" "Chroma" 1 0 2.5 6 0]
  ∧ isfile (Host:=DiskHost) "six.ply" (outside σ') = false.
Proof. by vm_compute. Qed.

(** ** The command line *)

Section Batch.
Context `{RS : RandomState} `{AS : !ArgSort bytes_le} `{HO : Host}.

(** The loop prints one line for each file it gets through, and stops
    early only when a directory cannot be made. *)
Lemma process_files_spec (ply_files : list string) (args : Args) (uc : bool) (σ : state) :
  ∃ done lines,
    done `prefix_of` ply_files
    ∧ stdout (process_files ply_files args uc σ).2 = stdout σ ++ lines
    ∧ Forall2 (λ f line,
         line = Skipping (basename f)
         ∨ ∃ tag d n m,
             line = Reduced (basename f) tag (args_quantization args) (args_k args) d n m
             ∧ (m ≤ n)%nat) done lines
    ∧ ((process_files ply_files args uc σ).1 = Finished ∧ done = ply_files
       ∨ (process_files ply_files args uc σ).1 = UncaughtOSError).
Proof.
  revert σ. induction ply_files as [|f rest IH]; intros σ.
  - exists [], []. simpl. rewrite app_nil_r. split; [done|]. split; [done|].
    split; [constructor|]. by left.
  - simpl. destruct (ensure_dir _ (outside σ)) as [w|]; last first.
    { exists [], []. simpl. rewrite app_nil_r. split; [apply prefix_nil|].
      split; [done|]. split; [constructor|]. by right. }
    set (σ1 := {| objects := objects σ; generator := generator σ; outside := w;
                  stdout := stdout σ |}).
    destruct (process_file_Return f
                (join (args_output args) (relpath f (args_input args) (outside σ)))
                (args_k args) (args_quantization args) uc σ1)
      as (σ2 & line & Hrun & Hout & Hline).
    rewrite Hrun.
    destruct (IH σ2) as (done & lines & Hpre & Hlines & Hall & Hexit).
    exists (f :: done), (line :: lines).
    split; [by apply prefix_cons|]. split; [|split].
    + rewrite Hlines, Hout. simpl. by rewrite <-app_assoc.
    + by constructor.
    + destruct Hexit as [[-> ->]| ->]; [by left|by right].
Qed.
End Batch.

(** X16 (no exception of the sampler leaves [main]): once [parse_args]
    has returned, for every value of the parsed arguments and every
    world, the rest of [main] returns or is left by the OSError of a
    directory that could not be made; the sampler's exceptions never
    reach it.  (What [parse_args] itself does, its SystemExit included,
    comes before the part of [main] that is embedded.) *)
Theorem main_exit `{RS : RandomState} `{AS : !ArgSort bytes_le} `{HO : Host}
    (args : Args) (σ : state) :
  (main args σ).1 = Finished ∨ (main args σ).1 = UncaughtOSError.
Proof.
  unfold main. destruct (isfile _ _).
  - destruct (process_file_Return (args_input args) (args_output args) (args_k args)
                (args_quantization args) (negb (args_no_chromaticity args)) σ)
      as (σ' & line & -> & _). by left.
  - destruct (isdir _ _); [|by left].
    destruct (ensure_dir _ _) as [w|]; [|by right].
    match goal with |- context [process_files ?fs ?a ?u ?s] =>
      destruct (process_files_spec fs a u s) as (done & lines & _ & _ & _ & Hexit) end.
    destruct Hexit as [[-> _]| ->]; [by left|by right].
Qed.

(** X17 (a directory is worked through file by file): when the input is
    a directory and [main] returns, it has printed the number of files
    found and then one line for each of them, in the order of the glob:
    either the warning line of [process_file], or its report line with
    the [k] and the step of the command line, whose final count is at
    most its original count.  The loop goes on after a warning line. *)
Theorem batch_one_line_per_file `{RS : RandomState} `{AS : !ArgSort bytes_le} `{HO : Host}
    (args : Args) (σ σ' : state) :
  isfile (args_input args) (outside σ) = false →
  isdir (args_input args) (outside σ) = true →
  main args σ = (Finished, σ') →
  ∃ w lines,
    ensure_dir (args_output args) (outside σ) = Some w
    ∧ stdout σ'
      = stdout σ ++
        Found (length (glob (join (args_input args) "**/*.ply") w)) (args_input args)
        :: lines
    ∧ Forall2 (λ f line,
         line = Skipping (basename f)
         ∨ ∃ tag d n m,
             line = Reduced (basename f) tag (args_quantization args) (args_k args) d n m
             ∧ (m ≤ n)%nat)
        (glob (join (args_input args) "**/*.ply") w) lines.
Proof.
  intros Hfile Hdir. unfold main. rewrite Hfile, Hdir.
  destruct (ensure_dir _ _) as [w|]; [|done].
  match goal with |- context [process_files ?fs ?a ?u ?s] =>
    destruct (process_files_spec fs a u s) as (done & lines & _ & Hout & Hall & Hexit) end.
  intros Hrun. rewrite Hrun in Hout, Hexit. cbn [fst snd stdout] in Hout, Hexit.
  destruct Hexit as [[_ ->]|?]; [|done].
  exists w, lines. split; [done|]. split; [|done].
  by rewrite Hout, <-app_assoc.
Qed.

Lemma batch_one_line_per_file_witness :
  let files w := glob (Host:=DiskHost) (join (Host:=DiskHost) "scans" "**/*.ply") w in
  ∃ w lines,
    ensure_dir (HO:=DiskHost) "out" scans = Some w
    ∧ [Found 2 "scans"; Reduced "six.ply" "Chroma" 1 1 2.5 6 2; Skipping "bare.ply"]
      = [] ++ Found (length (files w)) "scans" :: lines
    ∧ Forall2 (λ f line,
         line = Skipping (basename (Host:=DiskHost) f)
         ∨ ∃ tag d n m,
             line = Reduced (basename (Host:=DiskHost) f) tag 1%float 1 d n m
             ∧ (m ≤ n)%nat)
        (files w) lines.
Proof.
  intros files.
  apply (batch_one_line_per_file (RS:=TapeRandom) (AS:=StableArgSort) (HO:=DiskHost)
           {| args_input := "scans"; args_output := "out"; args_k := 1;
              args_quantization := 1; args_no_chromaticity := false |}
           start_state
           (main (RS:=TapeRandom) (AS:=StableArgSort) (HO:=DiskHost)
              {| args_input := "scans"; args_output := "out"; args_k := 1;
                 args_quantization := 1; args_no_chromaticity := false |}
              start_state).2).
  - reflexivity.
  - reflexivity.
  - vm_compute. reflexivity.
Defined.
